(** * Statement splitter of [sql/migrate/lex.go]

    A shallow embedding of the lexer that cuts a migration file into SQL
    statements ([newLex], [next], [skipQuote], [stmt], [stmts]) together
    with the parts of Go's [unicode/utf8], [unicode] and [strings] packages
    it calls, and the properties of the splitter stated over that embedding.

    Go strings are byte sequences: a string is a [list ascii], one [ascii]
    per byte.  Go's [int] values ([pos], [width], [start], [depth]) are
    integers of [Z]; every one of them stays between [0] and the length of
    the input plus the length of the delimiter (lemma [reachable_wf]), far
    from the 64-bit range, so no wrap-around is written.  A slice expression
    whose bounds are out of range panics in Go; the embedding keeps that as
    the outcome [Panic]. *)

From Stdlib Require Import ZArith List Ascii String Bool Lia.
Import ListNotations.
Local Open Scope Z_scope.

(** ** Strings and runes *)

Definition gostring := list ascii.
Definition rune := Z.

Definition bytes (s : string) : gostring := list_ascii_of_string s.
Definition byteZ (c : ascii) : Z := Z.of_N (N_of_ascii c).
Definition len (s : gostring) : Z := Z.of_nat (List.length s).

(** [s[i]] for an index known to be in range. *)
Definition byteAt (s : gostring) (i : nat) : Z := byteZ (nth i s zero).

(** [s[lo:]]: panics ([None]) unless [0 <= lo <= len(s)]. *)
Definition slice_from (s : gostring) (lo : Z) : option gostring :=
  if (0 <=? lo) && (lo <=? len s) then Some (skipn (Z.to_nat lo) s) else None.

(** [s[lo:hi]]: panics ([None]) unless [0 <= lo <= hi <= len(s)]. *)
Definition slice (s : gostring) (lo hi : Z) : option gostring :=
  if (0 <=? lo) && (lo <=? hi) && (hi <=? len s)
  then Some (firstn (Z.to_nat (hi - lo)) (skipn (Z.to_nat lo) s))
  else None.

Definition LF : ascii := "010"%char.
Definition TAB : ascii := "009"%char.

(** ** Go's [unicode/utf8]

    The functions of Go's standard library that the lexer calls are written
    out after the library's sources, loops and tables included. *)

Module utf8.

Definition RuneError : rune := 65533.
Definition RuneSelf : Z := 128.
Definition UTFMax : Z := 4.

(** The table [first]: information about the first byte of an encoding.
    [0xF0] is ASCII ([as]), [0xF1] is invalid ([xx]); otherwise the low
    three bits are the size and the high four index [acceptRanges]. *)
Definition first (b : Z) : Z :=
  if b <? 128 then 240
  else if b <? 194 then 241
  else if b <? 224 then 2
  else if b =? 224 then 19
  else if b <? 237 then 3
  else if b =? 237 then 35
  else if b <? 240 then 3
  else if b =? 240 then 52
  else if b <? 244 then 4
  else if b =? 244 then 68
  else 241.

(** [acceptRanges]: the range of valid values for the second byte. *)
Definition acceptRanges (i : Z) : Z * Z :=
  if i =? 1 then (160, 191)
  else if i =? 2 then (128, 159)
  else if i =? 3 then (144, 191)
  else if i =? 4 then (128, 143)
  else (128, 191).

Definition DecodeRuneInString (s : gostring) : rune * Z :=
  let n := len s in
  if n <? 1 then (RuneError, 0) else
  let s0 := byteAt s 0 in
  let x := first s0 in
  if x >=? 240 then
    (* mask := rune(x) << 31 >> 31 *)
    let mask := if Z.testbit x 0 then -1 else 0 in
    (Z.lor (Z.ldiff s0 mask) (Z.land RuneError mask), 1)
  else
  let sz := Z.land x 7 in
  let '(lo, hi) := acceptRanges (Z.shiftr x 4) in
  if n <? sz then (RuneError, 1) else
  let s1 := byteAt s 1 in
  if (s1 <? lo) || (hi <? s1) then (RuneError, 1) else
  if sz <=? 2 then
    (Z.lor (Z.shiftl (Z.land s0 31) 6) (Z.land s1 63), 2)
  else
  let s2 := byteAt s 2 in
  if (s2 <? 128) || (191 <? s2) then (RuneError, 1) else
  if sz <=? 3 then
    (Z.lor (Z.lor (Z.shiftl (Z.land s0 15) 12) (Z.shiftl (Z.land s1 63) 6))
           (Z.land s2 63), 3)
  else
  let s3 := byteAt s 3 in
  if (s3 <? 128) || (191 <? s3) then (RuneError, 1) else
  (Z.lor (Z.lor (Z.lor (Z.shiftl (Z.land s0 7) 18) (Z.shiftl (Z.land s1 63) 12))
                (Z.shiftl (Z.land s2 63) 6))
         (Z.land s3 63), 4).

(** [RuneStart(b)]: [b&0xC0 != 0x80]. *)
Definition RuneStart (b : Z) : bool := negb (Z.land b 192 =? 128).

(** The backwards search of [DecodeLastRuneInString]:
    [for start--; start >= lim; start-- { if RuneStart(s[start]) { break } }]. *)
Fixpoint lastRuneStart (fuel : nat) (s : gostring) (start lim : Z) : Z :=
  match fuel with
  | O => start
  | S k =>
      if start >=? lim then
        if RuneStart (byteAt s (Z.to_nat start)) then start
        else lastRuneStart k s (start - 1) lim
      else start
  end.

Definition DecodeLastRuneInString (s : gostring) : rune * Z :=
  let end_ := len s in
  if end_ =? 0 then (RuneError, 0) else
  let start := end_ - 1 in
  let r := byteAt s (Z.to_nat start) in
  if r <? RuneSelf then (r, 1) else
  let lim := Z.max 0 (end_ - UTFMax) in
  let start := lastRuneStart 5 s (start - 1) lim in
  let start := Z.max 0 start in
  let '(r, size) :=
    DecodeRuneInString (firstn (Z.to_nat (end_ - start)) (skipn (Z.to_nat start) s)) in
  if negb (start + size =? end_) then (RuneError, 1) else (r, size).

End utf8.

(** ** Go's [unicode.IsSpace] *)

Module unicode.

Definition MaxLatin1 : Z := 255.

Definition IsSpace (r : rune) : bool :=
  if (0 <=? r) && (r <=? MaxLatin1) then
    (r =? 9) || (r =? 10) || (r =? 11) || (r =? 12) || (r =? 13) || (r =? 32)
    || (r =? 133) || (r =? 160)
  else
    (* the table White_Space, without its Latin-1 entries *)
    (r =? 5760) || ((8192 <=? r) && (r <=? 8202)) || (r =? 8232) || (r =? 8233)
    || (r =? 8239) || (r =? 8287) || (r =? 12288).

End unicode.

(** ** Go's [strings] *)

Module strings.

Fixpoint HasPrefix (s prefix : gostring) {struct prefix} : bool :=
  match prefix, s with
  | [], _ => true
  | _ :: _, [] => false
  | p :: ps, c :: cs => Ascii.eqb c p && HasPrefix cs ps
  end.

(** [Index(s, substr)]: the index of the first instance of [substr] in [s],
    or [-1]. *)
Fixpoint Index (s substr : gostring) : Z :=
  if HasPrefix s substr then 0
  else match s with
       | [] => -1
       | _ :: t => let i := Index t substr in if i <? 0 then -1 else i + 1
       end.

(** [indexFunc]: [for i, r := range s { if f(r) == truth { return i } }]. *)
Fixpoint indexFunc_loop (fuel : nat) (s : gostring) (i : Z)
  (f : rune -> bool) (truth : bool) : Z :=
  match fuel with
  | O => -1
  | S k =>
      match s with
      | [] => -1
      | _ :: _ =>
          let '(r, w) := utf8.DecodeRuneInString s in
          if Bool.eqb (f r) truth then i
          else indexFunc_loop k (skipn (Z.to_nat w) s) (i + w) f truth
      end
  end.

Definition indexFunc (s : gostring) (f : rune -> bool) (truth : bool) : Z :=
  indexFunc_loop (List.length s) s 0 f truth.

Fixpoint lastIndexFunc_loop (fuel : nat) (s : gostring) (i : Z)
  (f : rune -> bool) (truth : bool) : Z :=
  match fuel with
  | O => -1
  | S k =>
      if i >? 0 then
        let '(r, size) := utf8.DecodeLastRuneInString (firstn (Z.to_nat i) s) in
        let i := i - size in
        if Bool.eqb (f r) truth then i else lastIndexFunc_loop k s i f truth
      else -1
  end.

Definition lastIndexFunc (s : gostring) (f : rune -> bool) (truth : bool) : Z :=
  lastIndexFunc_loop (List.length s) s (len s) f truth.

Definition TrimLeftFunc (s : gostring) (f : rune -> bool) : gostring :=
  let i := indexFunc s f false in
  if i =? -1 then [] else skipn (Z.to_nat i) s.

Definition TrimRightFunc (s : gostring) (f : rune -> bool) : gostring :=
  let i := lastIndexFunc s f false in
  let i :=
    if (i >=? 0) && (byteAt s (Z.to_nat i) >=? utf8.RuneSelf)
    then i + snd (utf8.DecodeRuneInString (skipn (Z.to_nat i) s))
    else i + 1 in
  firstn (Z.to_nat i) s.

Definition TrimFunc (s : gostring) (f : rune -> bool) : gostring :=
  TrimRightFunc (TrimLeftFunc s f) f.

(** The table [asciiSpace]. *)
Definition asciiSpace (c : Z) : bool :=
  (c =? 9) || (c =? 10) || (c =? 11) || (c =? 12) || (c =? 13) || (c =? 32).

(** First loop of [TrimSpace]: [inl t] is [s[start:]] when the loop ends
    or breaks, [inr r] is the result returned from inside the loop. *)
Fixpoint TrimSpace_start (s : gostring) : gostring + gostring :=
  match s with
  | [] => inl []
  | c :: t =>
      if byteZ c >=? utf8.RuneSelf then inr (TrimFunc s unicode.IsSpace)
      else if asciiSpace (byteZ c) then TrimSpace_start t
      else inl s
  end.

(** Second loop of [TrimSpace], over [s = s[start:]] with [stop] counted
    from [start]. *)
Fixpoint TrimSpace_stop (s : gostring) (stop : nat) : gostring :=
  match stop with
  | O => []
  | S k =>
      let c := byteAt s k in
      if c >=? utf8.RuneSelf then TrimRightFunc (firstn stop s) unicode.IsSpace
      else if asciiSpace c then TrimSpace_stop s k
      else firstn stop s
  end.

Definition TrimSpace (s : gostring) : gostring :=
  match TrimSpace_start s with
  | inr r => r
  | inl t => TrimSpace_stop t (List.length t)
  end.

End strings.

(** ** The lexer of [sql/migrate/lex.go] *)

(** The errors the file builds: [io.EOF], [errors.New(...)] and
    [fmt.Errorf(...)] with the value formatted into the message. *)
Inductive error : Type :=
| io_EOF
| ErrInvalidDelimiter                 (* "invalid delimiter" *)
| ErrUnclosedParens                   (* "unclosed parentheses" *)
| ErrUnexpectedClose (position : Z)   (* "unexpected ')' at position %d" *)
| ErrUnclosedQuote (quote : rune)     (* "unclosed quote %q" *)
| ErrUnclosedComment (position : Z).  (* "unclosed comment: %d" *)

(** What a call hands back: a value with a nil error, an error, a run-time
    panic of a slice expression, or [OutOfFuel] when a loop of the model has
    used up its bound. *)
Inductive res (A : Type) : Type :=
| Ok (a : A)
| Err (e : error)
| Panic
| OutOfFuel.

Arguments Ok {A} a.
Arguments Err {A} e.
Arguments Panic {A}.
Arguments OutOfFuel {A}.

Record lex : Type := mkLex {
  input : gostring;
  pos : Z;          (* current position. *)
  width : Z;        (* size of latest rune. *)
  start : Z;        (* start position of current statement. *)
  depth : Z;        (* depth of parentheses. *)
  delim : gostring  (* configured delimiter. *)
}.

Definition set_pos (l : lex) (p : Z) : lex :=
  mkLex (input l) p (width l) (start l) (depth l) (delim l).
Definition set_width (l : lex) (w : Z) : lex :=
  mkLex (input l) (pos l) w (start l) (depth l) (delim l).
Definition set_start (l : lex) (s : Z) : lex :=
  mkLex (input l) (pos l) (width l) s (depth l) (delim l).
Definition set_depth (l : lex) (d : Z) : lex :=
  mkLex (input l) (pos l) (width l) (start l) d (delim l).

Definition eos : rune := -1.
Definition delimComment : gostring := bytes "//atlas:delimiter ".

Definition rune_lparen : rune := 40.
Definition rune_rparen : rune := 41.
Definition rune_squote : rune := 39.
Definition rune_dquote : rune := 34.
Definition rune_backtick : rune := 96.
Definition rune_minus : rune := 45.
Definition rune_slash : rune := 47.
Definition rune_star : rune := 42.
Definition rune_backslash : rune := 92.

(** A method returns its result together with the state it leaves in the
    receiver. *)
Definition bind {A B : Type} (m : res A * lex) (f : A -> lex -> res B * lex)
  : res B * lex :=
  match m with
  | (Ok a, l) => f a l
  | (Err e, l) => (Err e, l)
  | (Panic, l) => (Panic, l)
  | (OutOfFuel, l) => (OutOfFuel, l)
  end.

Notation "x <- m ;; 'on' l 'do' k" := (bind m (fun x l => k))
  (at level 61, m at next level, l name, right associativity).

Definition newLex (input : gostring) : res lex :=
  let delim := bytes ";" in
  let input := strings.TrimSpace input in
  if strings.HasPrefix input delimComment then
    match slice_from input (len delimComment) with
    | None => Panic
    | Some t =>
        let input := strings.TrimSpace t in
        let i := strings.Index input [LF] in
        if i =? -1 then Err ErrInvalidDelimiter
        else
          match slice input 0 i, slice_from input (i + 1) with
          | Some delim, Some input => Ok (mkLex input 0 0 0 0 delim)
          | _, _ => Panic
          end
    end
  else Ok (mkLex input 0 0 0 0 delim).

Definition next (l : lex) : res rune * lex :=
  if pos l >=? len (input l) then (Ok eos, l)
  else
    match slice_from (input l) (pos l) with
    | None => (Panic, l)
    | Some t =>
        let '(r, w) := utf8.DecodeRuneInString t in
        (Ok r, set_width (set_pos l (pos l + w)) w)
    end.

(** One round of the loop of [skipQuote]: [Ok true] when the function
    returns nil, [Ok false] when the loop goes round again. *)
Definition skipQuote_iter (quote : rune) (l : lex) : res bool * lex :=
  r <- next l ;; on l do
  if r =? eos then (Err (ErrUnclosedQuote quote), l)
  else if r =? rune_backslash then
    _ <- next l ;; on l do (Ok false, l)
  else if r =? quote then (Ok true, l)
  else (Ok false, l).

Fixpoint skipQuote_loop (fuel : nat) (quote : rune) (l : lex) : res unit * lex :=
  match fuel with
  | O => (OutOfFuel, l)
  | S k =>
      closed <- skipQuote_iter quote l ;; on l do
      if closed then (Ok tt, l) else skipQuote_loop k quote l
  end.

(** Every round that does not return reads at least one byte, so the bytes
    left plus one bound the number of rounds. *)
Definition rounds (l : lex) : nat := S (Z.to_nat (len (input l) - pos l)).

Definition skipQuote (quote : rune) (l : lex) : res unit * lex :=
  skipQuote_loop (rounds l) quote l.

(** [r == c1 && l.next() == c2]: [next] is called only when [r == c1]. *)
Definition and_next (r c1 c2 : rune) (l : lex) : res bool * lex :=
  if r =? c1 then r2 <- next l ;; on l do (Ok (r2 =? c2), l)
  else (Ok false, l).

(** One round of the loop of [stmt]: [Ok (Some s)] when the function
    returns [s, nil], [Ok None] when the loop goes round again. *)
Definition stmt_iter (l : lex) : res (option gostring) * lex :=
  r <- next l ;; on l do
  if r =? eos then
    if depth l >? 0 then (Err ErrUnclosedParens, l)
    else if pos l >? start l then
      match slice_from (input l) (start l) with
      | Some s => (Ok (Some s), l)
      | None => (Panic, l)
      end
    else (Err io_EOF, l)
  else if r =? rune_lparen then (Ok None, set_depth l (depth l + 1))
  else if r =? rune_rparen then
    if depth l =? 0 then (Err (ErrUnexpectedClose (pos l)), l)
    else (Ok None, set_depth l (depth l - 1))
  else if (r =? rune_squote) || (r =? rune_dquote) || (r =? rune_backtick) then
    _ <- skipQuote r l ;; on l do (Ok None, l)
  else
  c <- and_next r rune_minus rune_minus l ;; on l do
  if c then
    match slice_from (input l) (pos l) with
    | None => (Panic, l)
    | Some t =>
        let i := strings.Index t [LF] in
        if negb (i =? -1) then (Ok None, set_pos l (pos l + (i + 1)))
        else (Ok None, l)
    end
  else
  c <- and_next r rune_slash rune_star l ;; on l do
  if c then
    match slice_from (input l) (pos l) with
    | None => (Panic, l)
    | Some t =>
        let i := strings.Index t (bytes "*/") in
        if i <? 0 then (Err (ErrUnclosedComment (pos l)), l)
        else (Ok None, set_pos l (pos l + (i + 2)))
    end
  else
  match slice_from (input l) (pos l - width l) with
  | None => (Panic, l)
  | Some t =>
      if strings.HasPrefix t (delim l) then
        if depth l =? 0 then
          match slice (input l) (start l) (pos l) with
          | None => (Panic, l)
          | Some stmt =>
              (Ok (Some stmt),
               set_pos (set_start l (pos l - width l)) (pos l + len (delim l)))
          end
        else (Ok None, l)
      else (Ok None, l)
  end.

Fixpoint stmt_loop (fuel : nat) (l : lex) : res gostring * lex :=
  match fuel with
  | O => (OutOfFuel, l)
  | S k =>
      out <- stmt_iter l ;; on l do
      match out with
      | Some s => (Ok s, l)
      | None => stmt_loop k l
      end
  end.

Definition stmt (l : lex) : res gostring * lex := stmt_loop (rounds l) l.

(** The loop of [stmts].  Nothing bounds the number of statements a lexer
    hands out, so the bound is a parameter. *)
Fixpoint stmts_loop (fuel : nat) (l : lex) (acc : list gostring)
  : res (list gostring) :=
  match fuel with
  | O => OutOfFuel
  | S k =>
      match stmt l with
      | (Err io_EOF, _) => Ok acc
      | (Err e, _) => Err e
      | (Ok s, l') => stmts_loop k l' (acc ++ [s])
      | (Panic, _) => Panic
      | (OutOfFuel, _) => OutOfFuel
      end
  end.

Definition stmts (fuel : nat) (input : gostring) : res (list gostring) :=
  match newLex input with
  | Ok l => stmts_loop fuel l []
  | Err e => Err e
  | Panic => Panic
  | OutOfFuel => OutOfFuel
  end.

(** ** Vocabulary of the properties *)

(** A lexer as [newLex] builds it. *)
Definition fresh (input delim : gostring) : lex := mkLex input 0 0 0 0 delim.

(** [run n l]: the state after [n] rounds of the loop of [stmt] from [l],
    when none of them returns. *)
Fixpoint run (n : nat) (l : lex) : option lex :=
  match n with
  | O => Some l
  | S k =>
      match stmt_iter l with
      | (Ok None, l') => run k l'
      | _ => None
      end
  end.

(** The states a lexer built from the file [src] goes through: the one
    [newLex] returns, and the ones a call of [next] or a round of [stmt]
    leaves behind, whatever they hand back. *)
Inductive reachable (src : gostring) : lex -> Prop :=
| reach_new : forall l, newLex src = Ok l -> reachable src l
| reach_next : forall l r l',
    reachable src l -> next l = (r, l') -> reachable src l'
| reach_iter : forall l r l',
    reachable src l -> stmt_iter l = (r, l') -> reachable src l'.

(** The bounds every reachable state keeps. *)
Definition wf (l : lex) : Prop :=
  0 <= depth l <= pos l /\
  0 <= start l <= pos l /\
  start l <= len (input l) /\
  pos l <= len (input l) + len (delim l) /\
  0 <= width l <= 4.

(** [same l l']: the fields that only [stmt] itself writes are unchanged. *)
Definition same (l l' : lex) : Prop :=
  input l' = input l /\ delim l' = delim l /\
  start l' = start l /\ depth l' = depth l.

(** What one round of [stmt] guarantees about the state it leaves, by the
    way it ends. *)
Definition iter_post (l : lex) (r : res (option gostring)) (l' : lex) : Prop :=
  match r with
  | Ok None =>
      start l' = start l /\ pos l < pos l' <= len (input l) /\
      (depth l' = depth l \/
       (depth l' = depth l + 1 /\ exists l1, next l = (Ok rune_lparen, l1)) \/
       (depth l' = depth l - 1 /\ 0 < depth l /\
        exists l1, next l = (Ok rune_rparen, l1)))
  | Ok (Some _) => start l' < pos l' /\ depth l' = 0 /\ depth l = 0
  | Err e => same l l' /\ (e = io_EOF -> l' = l /\ pos l <= start l)
  | Panic | OutOfFuel => False
  end.

Definition quote_rune (c : rune) : bool :=
  (c =? rune_squote) || (c =? rune_dquote) || (c =? rune_backtick).

(** A rune none of the rules before the delimiter test looks at. *)
Definition ordinary (c : rune) : bool :=
  negb ((c =? eos) || (c =? rune_lparen) || (c =? rune_rparen) || quote_rune c
        || (c =? rune_minus) || (c =? rune_slash)).

(** A text made of white space only: it decodes, code point by code point,
    into runes that [unicode.IsSpace] accepts.  The empty text is one. *)
Inductive whitespace_only : gostring -> Prop :=
| ws_nil : whitespace_only []
| ws_rune : forall c t r w,
    utf8.DecodeRuneInString (c :: t) = (r, w) ->
    unicode.IsSpace r = true ->
    whitespace_only (skipn (Z.to_nat w) (c :: t)) ->
    whitespace_only (c :: t).

(** The second character of the two comment markers. *)
Definition marker_second (c : rune) : rune :=
  if c =? rune_minus then rune_minus else rune_star.

(** The lookahead as the specification words it: after a ['-'] or a ['/']
    whose following code point does not complete the marker, that code
    point is looked at by no other rule of the round.  So, unless the
    delimiter begins at the ['-'] or ['/'] itself, the round does nothing
    but go on behind the following code point. *)
Definition lookahead_inert : Prop :=
  forall l c l1 r2 l2,
    c = rune_minus \/ c = rune_slash ->
    next l = (Ok c, l1) ->
    next l1 = (Ok r2, l2) -> r2 <> eos ->
    r2 <> marker_second c ->
    strings.HasPrefix (skipn (Z.to_nat (pos l)) (input l)) (delim l) = false ->
    stmt_iter l = (Ok None, l2).

(** The directive as the specification words it: the text between the
    marker and the first newline of the trimmed input is the delimiter,
    untrimmed, and what follows that newline is the buffer. *)
Definition directive_verbatim : Prop :=
  forall raw d b,
    strings.TrimSpace raw = delimComment ++ d ++ LF :: b ->
    ~ In LF d ->
    newLex raw = Ok (fresh b d).

(** The error of a stray [')'] as the specification words it: it carries
    the offset of that parenthesis, the index [k] of its byte in the
    buffer. *)
Definition close_paren_reports_its_offset : Prop :=
  forall l k,
    0 <= k -> pos l = k ->
    nth_error (input l) (Z.to_nat k) = Some ")"%char ->
    depth l = 0 ->
    fst (stmt l) = Err (ErrUnexpectedClose k).


(** ** Vocabulary of the further properties *)

(** The start of the statement lies inside the buffer as soon as something
    has been read, and the cursor is at the start only while nothing has. *)
Definition anchored (l : lex) : Prop :=
  wf l /\
  (start l < pos l -> start l < len (input l)) /\
  (start l = pos l -> pos l = 0).

(** What the errors of [stmt] other than [io.EOF] carry, with respect to the
    state [l'] the failing call leaves. *)
Definition structural_error (l' : lex) (e : error) : Prop :=
  match e with
  | io_EOF | ErrInvalidDelimiter => False
  | ErrUnclosedParens => 0 < depth l' /\ len (input l') <= pos l'
  | ErrUnexpectedClose p => p = pos l' /\ depth l' = 0 /\ 0 < p <= len (input l')
  | ErrUnclosedQuote q => quote_rune q = true
  | ErrUnclosedComment p => p = pos l' /\ 2 <= p <= len (input l')
  end.

(** What one round of [stmt] does to the cursor and the start, and what it
    hands back. *)
Definition round_post (l : lex) (r : res (option gostring)) (l' : lex) : Prop :=
  pos l <= pos l' /\ start l <= start l' /\
  match r with
  | Ok None => True
  | Ok (Some s) =>
      exists e, start l < e <= len (input l) /\
                slice (input l) (start l) e = Some s
  | Err e =>
      (e = io_EOF /\ l' = l /\ len (input l) <= pos l /\ pos l <= start l) \/
      structural_error l' e
  | Panic | OutOfFuel => False
  end.

(** The body of a quoted literal: bytes other than the quote and the
    backslash, and backslashes each followed by one byte below 128. *)
Inductive escaped (qc : ascii) : gostring -> Prop :=
| esc_nil : escaped qc []
| esc_plain : forall c t,
    c <> qc -> c <> "\"%char -> escaped qc t -> escaped qc (c :: t)
| esc_pair : forall c t,
    byteZ c < 128 -> escaped qc t -> escaped qc ("\"%char :: c :: t).

(** [sub] does not begin at any of the first [n] offsets of [s]. *)
Definition absent_before (sub s : gostring) (n : nat) : Prop :=
  forall j, (j < n)%nat -> strings.HasPrefix (skipn j s) sub = false.

(** What a call of [stmt] guarantees, by what it hands back. *)
Definition call_post (l : lex) (r : res gostring) (l' : lex) : Prop :=
  match r with
  | Ok s =>
      depth l' = 0 /\
      exists e, start l < e <= len (input l) /\
                slice (input l) (start l) e = Some s
  | Err e =>
      (e = io_EOF /\ l' = l /\ len (input l) <= pos l /\ pos l <= start l) \/
      structural_error l' e
  | Panic => False
  | OutOfFuel => True
  end.

(** * Properties *)

(** ** Strings, slices and the decoder *)

Lemma len_nonneg s : 0 <= len s.
Proof. unfold len; lia. Qed.

Lemma len_cons c s : len (c :: s) = len s + 1.
Proof. unfold len; simpl List.length; lia. Qed.

Lemma byteZ_range c : 0 <= byteZ c < 256.
Proof.
  unfold byteZ. pose proof (N_ascii_bounded c). lia.
Qed.

Lemma first_cases b :
  utf8.first b = 240 \/ utf8.first b = 241 \/ utf8.first b = 2 \/
  utf8.first b = 19 \/ utf8.first b = 3 \/ utf8.first b = 35 \/
  utf8.first b = 52 \/ utf8.first b = 4 \/ utf8.first b = 68.
Proof.
  unfold utf8.first.
  repeat match goal with |- context [if ?c then _ else _] => destruct c end; tauto.
Qed.

Ltac split_ifs :=
  repeat match goal with
         | |- context [if ?c then _ else _] => let E := fresh "E" in destruct c eqn:E
         end.

Lemma DecodeRuneInString_bounds s r w :
  s <> [] -> utf8.DecodeRuneInString s = (r, w) ->
  1 <= w <= 4 /\ w <= len s /\ 0 <= r.
Proof.
  intros Hs. unfold utf8.DecodeRuneInString.
  assert (Hl : 1 <= len s) by (destruct s; [congruence | rewrite len_cons; pose proof (len_nonneg s); lia]).
  destruct (len s <? 1) eqn:E1; [lia|].
  pose proof (byteZ_range (nth 0 s zero)) as B0. fold (byteAt s 0) in B0.
  remember (byteAt s 0) as s0 eqn:Q0. remember (byteAt s 1) as s1 eqn:Q1.
  remember (byteAt s 2) as s2 eqn:Q2. remember (byteAt s 3) as s3 eqn:Q3.
  clear Q0 Q1 Q2 Q3.
  assert (N2 : 0 <= Z.lor (Z.shiftl (Z.land s0 31) 6) (Z.land s1 63)).
  { repeat (rewrite ?Z.lor_nonneg, ?Z.land_nonneg, ?Z.shiftl_nonneg; try split); lia. }
  assert (N3 : 0 <= Z.lor (Z.lor (Z.shiftl (Z.land s0 15) 12) (Z.shiftl (Z.land s1 63) 6)) (Z.land s2 63)).
  { repeat (rewrite ?Z.lor_nonneg, ?Z.land_nonneg, ?Z.shiftl_nonneg; try split); lia. }
  assert (N4 : 0 <= Z.lor (Z.lor (Z.lor (Z.shiftl (Z.land s0 7) 18) (Z.shiftl (Z.land s1 63) 12)) (Z.shiftl (Z.land s2 63) 6)) (Z.land s3 63)).
  { repeat (rewrite ?Z.lor_nonneg, ?Z.land_nonneg, ?Z.shiftl_nonneg; try split); lia. }
  remember (Z.lor (Z.shiftl (Z.land s0 31) 6) (Z.land s1 63)) as r2 eqn:Q2.
  remember (Z.lor (Z.lor (Z.shiftl (Z.land s0 15) 12) (Z.shiftl (Z.land s1 63) 6)) (Z.land s2 63)) as r3 eqn:Q3.
  remember (Z.lor (Z.lor (Z.lor (Z.shiftl (Z.land s0 7) 18) (Z.shiftl (Z.land s1 63) 12)) (Z.shiftl (Z.land s2 63) 6)) (Z.land s3 63)) as r4 eqn:Q4.
  clear Q2 Q3 Q4.
  destruct (first_cases s0) as [H|[H|[H|[H|[H|[H|[H|[H|H]]]]]]]]; rewrite H;
    cbn -[len Z.ltb Z.leb Z.ldiff Z.lor];
    rewrite ?Z.ldiff_0_r, ?Z.lor_0_r, ?Z.ldiff_m1_r;
    split_ifs; intros H0; inversion H0; subst; unfold utf8.RuneError; cbn; lia.
Qed.

Lemma DecodeRuneInString_ascii c t :
  byteZ c < 128 -> utf8.DecodeRuneInString (c :: t) = (byteZ c, 1).
Proof.
  intros Hc. unfold utf8.DecodeRuneInString.
  rewrite len_cons. pose proof (len_nonneg t).
  destruct (len t + 1 <? 1) eqn:E; [lia|].
  change (byteAt (c :: t) 0) with (byteZ c).
  unfold utf8.first. destruct (byteZ c <? 128) eqn:E1; [|lia].
  cbn -[Z.ldiff Z.lor]. now rewrite Z.ldiff_0_r, Z.lor_0_r.
Qed.

(** *** [strings] *)

Lemma HasPrefix_app p r : strings.HasPrefix (p ++ r) p = true.
Proof.
  induction p as [|c p IH]; simpl; [reflexivity|].
  now rewrite Ascii.eqb_refl, IH.
Qed.

Lemma HasPrefix_inv s p :
  strings.HasPrefix s p = true -> exists r, s = p ++ r.
Proof.
  revert s; induction p as [|c p IH]; intros s H.
  - now exists s.
  - destruct s as [|a s]; simpl in H; [discriminate|].
    apply andb_true_iff in H as [Ha Hp].
    apply Ascii.eqb_eq in Ha as ->.
    destruct (IH _ Hp) as [r ->]. now exists r.
Qed.

Lemma len_app s t : len (s ++ t) = len s + len t.
Proof. unfold len. rewrite length_app. lia. Qed.

Lemma Index_range s sub :
  strings.Index s sub = -1 \/
  (0 <= strings.Index s sub /\ strings.Index s sub + len sub <= len s).
Proof.
  induction s as [|c s IH].
  - simpl. destruct (strings.HasPrefix [] sub) eqn:E; [|now left].
    right. apply HasPrefix_inv in E as [r E].
    destruct sub; [|discriminate]. cbn. lia.
  - cbn [strings.Index].
    destruct (strings.HasPrefix (c :: s) sub) eqn:E.
    + right. apply HasPrefix_inv in E as [r ->].
      rewrite len_app. pose proof (len_nonneg r). lia.
    + destruct (strings.Index s sub <? 0) eqn:E2; [now left|].
      right. rewrite len_cons. destruct IH as [IH|IH]; lia.
Qed.

Lemma Index_newline d b :
  ~ In LF d -> strings.Index (d ++ LF :: b) [LF] = len d.
Proof.
  induction d as [|c d IH]; intros Hd.
  - reflexivity.
  - cbn [app strings.Index strings.HasPrefix].
    destruct (Ascii.eqb c LF) eqn:E.
    + apply Ascii.eqb_eq in E. exfalso. apply Hd. now left.
    + cbn [andb]. rewrite IH by (intros ?; apply Hd; now right).
      rewrite len_cons. pose proof (len_nonneg d).
      destruct (len d <? 0) eqn:E2; lia.
Qed.

Lemma slice_from_app p r : slice_from (p ++ r) (len p) = Some r.
Proof.
  unfold slice_from. rewrite len_app.
  pose proof (len_nonneg p); pose proof (len_nonneg r).
  destruct (0 <=? len p) eqn:E1; [|lia].
  destruct (len p <=? len p + len r) eqn:E2; [|lia].
  cbn [andb]. unfold len. rewrite Nat2Z.id.
  now rewrite skipn_app, skipn_all, Nat.sub_diag.
Qed.

Lemma slice_prefix p r : slice (p ++ r) 0 (len p) = Some p.
Proof.
  unfold slice. rewrite len_app.
  pose proof (len_nonneg p); pose proof (len_nonneg r).
  destruct (0 <=? len p) eqn:E1; [|lia].
  destruct (len p <=? len p + len r) eqn:E2; [|lia].
  cbn. rewrite Z.sub_0_r. unfold len. rewrite Nat2Z.id.
  now rewrite firstn_app, firstn_all, Nat.sub_diag, app_nil_r.
Qed.

Lemma len_skipn s n :
  0 <= n <= len s -> len (skipn (Z.to_nat n) s) = len s - n.
Proof. unfold len. rewrite length_skipn. lia. Qed.

Lemma slice_from_Some s lo :
  0 <= lo <= len s -> slice_from s lo = Some (skipn (Z.to_nat lo) s).
Proof.
  intros H. unfold slice_from.
  destruct (0 <=? lo) eqn:E1; [|lia]. destruct (lo <=? len s) eqn:E2; [|lia].
  reflexivity.
Qed.

Lemma slice_from_inv s lo t :
  slice_from s lo = Some t ->
  0 <= lo <= len s /\ t = skipn (Z.to_nat lo) s /\ len t = len s - lo.
Proof.
  unfold slice_from.
  destruct (0 <=? lo) eqn:E1; [|discriminate].
  destruct (lo <=? len s) eqn:E2; [|discriminate].
  intros [= <-]. repeat split; try lia.
  unfold len. rewrite length_skipn. unfold len in E2. lia.
Qed.

Lemma slice_Some s lo hi :
  0 <= lo <= hi -> hi <= len s ->
  slice s lo hi = Some (firstn (Z.to_nat (hi - lo)) (skipn (Z.to_nat lo) s)).
Proof.
  intros H1 H2. unfold slice.
  destruct (0 <=? lo) eqn:E1; [|lia]. destruct (lo <=? hi) eqn:E2; [|lia].
  destruct (hi <=? len s) eqn:E3; [|lia]. reflexivity.
Qed.

(** *** One call of [next] *)

Lemma next_inv l r l' :
  next l = (r, l') ->
  (r = Ok eos /\ l' = l /\ len (input l) <= pos l) \/
  (r = Panic /\ l' = l /\ pos l < 0) \/
  (exists c w t,
      r = Ok c /\ 0 <= c /\ 1 <= w <= 4 /\ 0 <= pos l /\
      pos l + w <= len (input l) /\
      slice_from (input l) (pos l) = Some t /\
      utf8.DecodeRuneInString t = (c, w) /\
      l' = mkLex (input l) (pos l + w) w (start l) (depth l) (delim l)).
Proof.
  unfold next. destruct (pos l >=? len (input l)) eqn:E.
  - intros [= <- <-]. left. repeat split. lia.
  - destruct (slice_from (input l) (pos l)) as [t|] eqn:Ht.
    + destruct (utf8.DecodeRuneInString t) as [c w] eqn:Hd.
      intros [= <- <-]. right; right.
      apply slice_from_inv in Ht as Ht'. destruct Ht' as (Hr & -> & Hlen).
      assert (Hne : skipn (Z.to_nat (pos l)) (input l) <> []).
      { intros Hnil. rewrite Hnil in Hlen. cbn in Hlen. lia. }
      destruct (DecodeRuneInString_bounds _ _ _ Hne Hd) as (Hw & Hwl & Hc).
      exists c, w, (skipn (Z.to_nat (pos l)) (input l)).
      repeat split; try lia; auto.
    + intros [= <- <-]. right; left. repeat split.
      unfold slice_from in Ht.
      destruct (0 <=? pos l) eqn:E1; [|lia].
      destruct (pos l <=? len (input l)) eqn:E2; [discriminate|lia].
Qed.

Lemma next_eos l : len (input l) <= pos l -> next l = (Ok eos, l).
Proof.
  intros H. unfold next. destruct (pos l >=? len (input l)) eqn:E; [reflexivity|lia].
Qed.

Lemma same_refl l : same l l.
Proof. now unfold same. Qed.

Lemma same_trans l1 l2 l3 : same l1 l2 -> same l2 l3 -> same l1 l3.
Proof. unfold same. intuition congruence. Qed.

Lemma next_wf l r l' :
  next l = (r, l') -> wf l ->
  wf l' /\ same l l' /\ pos l <= pos l' /\
  ((r = Ok eos /\ l' = l /\ len (input l) <= pos l) \/
   (exists c, r = Ok c /\ 0 <= c /\ pos l < pos l' <= len (input l) /\
              pos l' - width l' = pos l)).
Proof.
  intros Hn Hwf. destruct (next_inv _ _ _ Hn) as [(-> & -> & H)|[(-> & -> & H)|H]].
  - repeat split; try apply Hwf; try lia. left. auto.
  - unfold wf in Hwf. lia.
  - destruct H as (c & w & t & -> & Hc & Hw & Hp & Hpl & _ & _ & ->).
    unfold wf, same in *; cbn. pose proof (len_nonneg (delim l)).
    repeat split; try lia. right. exists c. repeat split; lia.
Qed.

(** *** [skipQuote] *)

Lemma skipQuote_iter_wf q l r l' :
  skipQuote_iter q l = (r, l') -> wf l ->
  wf l' /\ same l l' /\ pos l <= pos l' /\
  ((r = Err (ErrUnclosedQuote q) /\ l' = l /\ len (input l) <= pos l) \/
   (exists b, r = Ok b /\ pos l < pos l' <= len (input l))).
Proof.
  unfold skipQuote_iter, bind. intros H Hwf.
  destruct (next l) as [r1 l1] eqn:N1.
  destruct (next_wf _ _ _ N1 Hwf) as (W1 & S1 & P1 & [(-> & -> & Hl)|(c & -> & Hc & Hp & _)]).
  - cbn in H. injection H as <- <-. repeat split; try apply Hwf; try lia. left; auto.
  - destruct (c =? eos) eqn:E; [unfold eos in E; lia|].
    assert (Hi : input l1 = input l) by apply S1.
    destruct (c =? rune_backslash).
    + destruct (next l1) as [r2 l2] eqn:N2.
      destruct (next_wf _ _ _ N2 W1) as (W2 & S2 & P2 & [(-> & -> & _)|(c2 & -> & _ & Hp2 & _)]);
        injection H as <- <-; repeat split; try apply W2; try apply (same_trans _ _ _ S1 S2);
        try lia; auto; right; exists false; split; auto; rewrite ?Hi in *; lia.
    + destruct (c =? q); injection H as <- <-; repeat split; try apply W1; try apply S1; try lia;
        right; eexists; split; eauto; lia.
Qed.

Lemma skipQuote_loop_wf f q : forall l r l',
  skipQuote_loop f q l = (r, l') -> wf l ->
  wf l' /\ same l l' /\ pos l <= pos l' /\ r <> Panic /\
  (forall e, r = Err e -> e = ErrUnclosedQuote q) /\
  (r = Ok tt -> pos l < pos l' <= len (input l)) /\
  ((Z.to_nat (len (input l) - pos l) < f)%nat -> r <> OutOfFuel).
Proof.
  induction f as [|k IH]; intros l r l' H Hwf.
  - cbn in H. injection H as <- <-.
    repeat split; try apply Hwf; try lia; try discriminate.
  - cbn [skipQuote_loop] in H. unfold bind in H.
    destruct (skipQuote_iter q l) as [r1 l1] eqn:I1.
    destruct (skipQuote_iter_wf _ _ _ _ I1 Hwf) as (W1 & S1 & P1 & [(-> & -> & Hl)|(b & -> & Hp)]).
    + injection H as <- <-. repeat split; try apply Hwf; try lia; try discriminate.
      intros e [= <-]. reflexivity.
    + assert (Hi : input l1 = input l) by apply S1.
      destruct b.
      * injection H as <- <-. repeat split; try apply W1; try apply S1; try lia; try discriminate.
      * destruct (IH _ _ _ H W1) as (W2 & S2 & P2 & NP & HE & HO & HT).
        rewrite Hi in *.
        split; [exact W2|]. split; [exact (same_trans _ _ _ S1 S2)|].
        split; [lia|]. split; [exact NP|]. split; [exact HE|]. split.
        -- intros Hr. specialize (HO Hr). lia.
        -- intros Hf. apply HT. lia.
Qed.

Lemma skipQuote_wf q l r l' :
  skipQuote q l = (r, l') -> wf l ->
  wf l' /\ same l l' /\ pos l <= pos l' /\
  (r = Err (ErrUnclosedQuote q) \/ (r = Ok tt /\ pos l < pos l' <= len (input l))).
Proof.
  unfold skipQuote. intros H Hwf.
  destruct (skipQuote_loop_wf _ _ _ _ _ H Hwf) as (W & S & P & NP & HE & HO & HT).
  repeat split; try apply W; try apply S; auto.
  destruct r as [[]|e| |]; [right; split; auto| left; now rewrite (HE e eq_refl) | congruence |].
  exfalso. apply HT; [|reflexivity]. unfold rounds. lia.
Qed.

(** *** One round of [stmt] *)

Lemma and_next_wf r c1 c2 l rb l' :
  0 <= c2 ->
  and_next r c1 c2 l = (rb, l') -> wf l ->
  wf l' /\ same l l' /\ pos l <= pos l' /\
  exists b, rb = Ok b /\
    (l' = l \/ (pos l < pos l' <= len (input l) /\ pos l' - width l' = pos l)) /\
    (b = true -> pos l < pos l' <= len (input l)).
Proof.
  unfold and_next, bind. intros Hc2 H Hwf.
  destruct (r =? c1).
  - destruct (next l) as [r2 l2] eqn:N.
    destruct (next_wf _ _ _ N Hwf) as (W & S & P & [(-> & -> & Hl)|(c & -> & Hc & Hp & Hw)]);
      injection H as <- <-; (split; [assumption|]); (split; [assumption|]);
      (split; [lia|]); eexists; (split; [reflexivity|]).
    + split; [now left|]. intros E. destruct c2; try discriminate; lia.
    + split; [right; lia|]. intros _; lia.
  - injection H as <- <-. split; [assumption|]. split; [apply same_refl|].
    split; [lia|]. exists false. split; [reflexivity|]. split; [now left|discriminate].
Qed.

Ltac len_eqs :=
  repeat match goal with
         | H : input ?a = input ?b |- _ =>
             lazymatch goal with
             | _ : len (input a) = len (input b) |- _ => fail
             | _ => pose proof (f_equal len H)
             end
         | H : delim ?a = delim ?b |- _ =>
             lazymatch goal with
             | _ : len (delim a) = len (delim b) |- _ => fail
             | _ => pose proof (f_equal len H)
             end
         end.

Ltac len_pos :=
  repeat match goal with
         | l : lex |- _ =>
             lazymatch goal with
             | _ : 0 <= len (delim l) |- _ => fail
             | _ => pose proof (len_nonneg (delim l)); pose proof (len_nonneg (input l))
             end
         end.

Ltac arith :=
  unfold wf, same, iter_post in *; cbn in *;
  repeat match goal with H : _ /\ _ |- _ => destruct H end;
  len_eqs; len_pos;
  repeat split; try congruence; try lia; try (left; lia).

Lemma stmt_iter_wf l r l' :
  stmt_iter l = (r, l') -> wf l ->
  wf l' /\ input l' = input l /\ delim l' = delim l /\ iter_post l r l'.
Proof.
  unfold stmt_iter, bind. intros H Hwf.
  destruct (next l) as [r1 l1] eqn:N1.
  destruct (next_wf _ _ _ N1 Hwf) as (W1 & S1 & P1 & [(-> & -> & Hl)|(c & -> & Hc & Hp & Hw)]).
  - (* end of input *)
    cbn in H. destruct (depth l >? 0) eqn:Ed.
    + injection H as <- <-. arith.
    + destruct (pos l >? start l) eqn:Ep.
      * rewrite slice_from_Some in H by (unfold wf in Hwf; lia).
        injection H as <- <-. arith.
      * injection H as <- <-. arith.
  - destruct (c =? eos) eqn:E; [unfold eos in E; lia|]. clear E.
    destruct (c =? rune_lparen) eqn:E.
    { apply Z.eqb_eq in E as ->. injection H as <- <-. arith.
      right; left. split; [lia|]. now exists l1. }
    clear E. destruct (c =? rune_rparen) eqn:E.
    { apply Z.eqb_eq in E as ->.
      destruct (depth l1 =? 0) eqn:Ed; injection H as <- <-; arith.
      right; right. repeat split; try lia. now exists l1. }
    clear E.
    destruct ((c =? rune_squote) || (c =? rune_dquote) || (c =? rune_backtick)).
    { destruct (skipQuote c l1) as [rq l2] eqn:Q.
      destruct (skipQuote_wf _ _ _ _ Q W1) as (W2 & S2 & P2 & [->|(-> & Hq)]);
        injection H as <- <-; arith. }
    destruct (and_next c rune_minus rune_minus l1) as [rb l2] eqn:A1.
    destruct (and_next_wf c rune_minus rune_minus l1 rb l2 ltac:(unfold rune_minus; lia) A1 W1)
      as (W2 & S2 & P2 & b & -> & Hl2 & Hb).
    destruct b.
    { specialize (Hb eq_refl).
      rewrite slice_from_Some in H by arith.
      set (t := skipn (Z.to_nat (pos l2)) (input l2)) in *.
      assert (Ht : len t = len (input l2) - pos l2).
      { unfold t. apply len_skipn. arith. }
      destruct (Index_range t [LF]) as [Hi|Hi]; change (len [LF]) with 1 in *.
      - rewrite Hi in H. cbn in H. injection H as <- <-. arith.
      - destruct (strings.Index t [LF] =? -1) eqn:Ei; [lia|].
        cbn [negb] in H. injection H as <- <-. arith. }
    destruct (and_next c rune_slash rune_star l2) as [rb l3] eqn:A2.
    destruct (and_next_wf c rune_slash rune_star l2 rb l3 ltac:(unfold rune_star; lia) A2 W2)
      as (W3 & S3 & P3 & b & -> & Hl3 & Hb3).
    destruct b.
    { specialize (Hb3 eq_refl).
      rewrite slice_from_Some in H by arith.
      set (t := skipn (Z.to_nat (pos l3)) (input l3)) in *.
      assert (Ht : len t = len (input l3) - pos l3).
      { unfold t. apply len_skipn. arith. }
      destruct (Index_range t (bytes "*/")) as [Hi|Hi]; change (len (bytes "*/")) with 2 in *.
      - rewrite Hi in H. cbn in H. injection H as <- <-. arith.
      - destruct (strings.Index t (bytes "*/") <? 0) eqn:Ei; [lia|].
        injection H as <- <-. arith. }
    assert (F : start l <= pos l3 - width l3 < pos l3 /\ pos l3 <= len (input l)).
    { destruct Hl2 as [->|Hl2]; destruct Hl3 as [->|Hl3]; arith. }
    rewrite slice_from_Some in H by arith.
    destruct (strings.HasPrefix _ (delim l3)); [|injection H as <- <-; arith].
    destruct (depth l3 =? 0) eqn:Ed; [|injection H as <- <-; arith].
    rewrite slice_Some in H by arith.
    injection H as <- <-. pose proof (len_nonneg (delim l3)). arith.
Qed.

(** *** The loop of [stmt] *)

Lemma stmt_loop_more f : forall l r l' f',
  stmt_loop f l = (r, l') -> r <> OutOfFuel -> (f <= f')%nat ->
  stmt_loop f' l = (r, l').
Proof.
  induction f as [|k IH]; intros l r l' f' H Hr Hf.
  - cbn in H. injection H as <- <-. congruence.
  - destruct f' as [|k']; [lia|].
    cbn [stmt_loop] in *. unfold bind in *.
    destruct (stmt_iter l) as [[[s|]|e| |] l1]; auto.
    apply IH; auto. lia.
Qed.

Lemma stmt_loop_wf f : forall l r l',
  stmt_loop f l = (r, l') -> wf l ->
  wf l' /\ input l' = input l /\ delim l' = delim l /\ r <> Panic /\
  ((Z.to_nat (len (input l) - pos l) < f)%nat -> r <> OutOfFuel).
Proof.
  induction f as [|k IH]; intros l r l' H Hwf.
  - cbn in H. injection H as <- <-. repeat split; try apply Hwf; try discriminate. lia.
  - cbn [stmt_loop] in H. unfold bind in H.
    destruct (stmt_iter l) as [r1 l1] eqn:I.
    destruct (stmt_iter_wf _ _ _ I Hwf) as (W1 & Hi & Hd & Hpost).
    destruct r1 as [[s|]|e| |]; try contradiction.
    + injection H as <- <-. repeat split; auto; try apply W1; discriminate.
    + destruct (IH _ _ _ H W1) as (W2 & Hi2 & Hd2 & NP & HT).
      repeat split; try apply W2; try congruence.
      intros Hf. apply HT. cbn in Hpost. rewrite Hi. lia.
    + injection H as <- <-. repeat split; auto; try apply W1; discriminate.
Qed.

Lemma stmt_total l :
  wf l -> exists r l', stmt l = (r, l') /\ wf l' /\ r <> Panic /\ r <> OutOfFuel.
Proof.
  intros Hwf. destruct (stmt l) as [r l'] eqn:H. exists r, l'.
  destruct (stmt_loop_wf _ _ _ _ H Hwf) as (W & _ & _ & NP & HT).
  split; [reflexivity|]. split; [exact W|]. split; [exact NP|].
  apply HT. unfold rounds. lia.
Qed.

Lemma stmt_unfold l :
  wf l ->
  stmt l = bind (stmt_iter l) (fun out l1 =>
             match out with
             | Some s => (Ok s, l1)
             | None => stmt l1
             end).
Proof.
  intros Hwf. unfold stmt at 1. unfold rounds. cbn [stmt_loop]. unfold bind.
  destruct (stmt_iter l) as [r1 l1] eqn:I.
  destruct r1 as [[s|]|e| |]; auto.
  destruct (stmt_iter_wf _ _ _ I Hwf) as (W1 & Hi & Hd & Hpost). cbn in Hpost.
  destruct (stmt l1) as [r l'] eqn:H.
  destruct (stmt_loop_wf _ _ _ _ H W1) as (_ & _ & _ & _ & HT).
  apply (stmt_loop_more _ _ _ _ _ H).
  - apply HT. unfold rounds. lia.
  - unfold rounds. rewrite Hi. lia.
Qed.

Lemma stmt_iter_eos l :
  len (input l) <= pos l ->
  stmt_iter l =
    if depth l >? 0 then (Err ErrUnclosedParens, l)
    else if pos l >? start l then
      match slice_from (input l) (start l) with
      | Some s => (Ok (Some s), l)
      | None => (Panic, l)
      end
    else (Err io_EOF, l).
Proof.
  intros H. unfold stmt_iter. rewrite (next_eos _ H). reflexivity.
Qed.

Lemma run_wf n : forall l l',
  run n l = Some l' -> wf l ->
  wf l' /\ input l' = input l /\ delim l' = delim l /\ start l' = start l.
Proof.
  induction n as [|k IH]; intros l l' H Hwf.
  - injection H as <-. auto.
  - cbn [run] in H. destruct (stmt_iter l) as [r1 l1] eqn:I.
    destruct r1 as [[s|]|e| |]; try discriminate.
    destruct (stmt_iter_wf _ _ _ I Hwf) as (W1 & Hi & Hd & Hpost). cbn in Hpost.
    destruct (IH _ _ H W1) as (W2 & Hi2 & Hd2 & Hs2).
    repeat split; try apply W2; try congruence. lia.
Qed.

Lemma stmt_run n : forall l l',
  run n l = Some l' -> wf l -> stmt l = stmt l'.
Proof.
  induction n as [|k IH]; intros l l' H Hwf.
  - now injection H as <-.
  - cbn [run] in H. rewrite (stmt_unfold l Hwf).
    destruct (stmt_iter l) as [r1 l1] eqn:I.
    destruct r1 as [[s|]|e| |]; try discriminate.
    cbn [bind]. apply IH; auto.
    now destruct (stmt_iter_wf _ _ _ I Hwf).
Qed.

(** C7.  Whenever the rounds of [stmt], started in a well-formed state [l],
    come to a state [l'] where the cursor is at the end of the input and the
    depth is positive, the call [stmt l] returns the error "unclosed
    parentheses"; it returns no statement, and leaves the lexer in [l']. *)
Theorem stmt_unclosed_parens n l l' :
  wf l -> run n l = Some l' ->
  len (input l') <= pos l' -> 0 < depth l' ->
  stmt l = (Err ErrUnclosedParens, l').
Proof.
  intros Hwf Hrun Heos Hd.
  rewrite (stmt_run _ _ _ Hrun Hwf).
  destruct (run_wf _ _ _ Hrun Hwf) as (W & _).
  rewrite (stmt_unfold _ W), (stmt_iter_eos _ Heos).
  destruct (depth l' >? 0) eqn:E; [reflexivity|lia].
Qed.

(** *** [newLex] and the reachable states *)

Lemma wf_fresh b d : wf (fresh b d).
Proof.
  unfold wf, fresh; cbn. pose proof (len_nonneg b). pose proof (len_nonneg d). lia.
Qed.

Lemma newLex_fresh src l : newLex src = Ok l -> exists b d, l = fresh b d.
Proof.
  unfold newLex.
  destruct (strings.HasPrefix _ delimComment).
  - destruct (slice_from _ _) as [t|]; [|discriminate].
    destruct (_ =? -1); [discriminate|].
    destruct (slice _ 0 _) as [d|]; [|discriminate].
    destruct (slice_from _ _) as [b|]; [|discriminate].
    intros [= <-]. now exists b, d.
  - intros [= <-]. now eexists _, _.
Qed.

Lemma reachable_wf src l : reachable src l -> wf l.
Proof.
  induction 1 as [l H|l r l' _ IH H|l r l' _ IH H].
  - destruct (newLex_fresh _ _ H) as (b & d & ->). apply wf_fresh.
  - now destruct (next_wf _ _ _ H IH).
  - now destruct (stmt_iter_wf _ _ _ H IH).
Qed.

(** No slice expression of [newLex] is out of range. *)
Lemma newLex_returns src :
  (exists l, newLex src = Ok l) \/ newLex src = Err ErrInvalidDelimiter.
Proof.
  unfold newLex.
  destruct (strings.HasPrefix _ delimComment) eqn:E; [|left; eauto].
  apply HasPrefix_inv in E as [rest ->].
  rewrite slice_from_app.
  set (t := strings.TrimSpace rest).
  destruct (Index_range t [LF]) as [Hi|[Hi Hl]]; change (len [LF]) with 1 in *.
  - rewrite Hi. now right.
  - destruct (strings.Index t [LF] =? -1) eqn:E; [lia|].
    rewrite slice_Some, slice_from_Some by lia. left; eauto.
Qed.

Lemma stmt_loop_reachable src f : forall l r l',
  reachable src l -> stmt_loop f l = (r, l') -> reachable src l'.
Proof.
  induction f as [|k IH]; intros l r l' Hr H.
  - cbn in H. now injection H as <- <-.
  - cbn [stmt_loop] in H. unfold bind in H.
    destruct (stmt_iter l) as [r1 l1] eqn:I.
    assert (R1 : reachable src l1) by (eapply reach_iter; eauto).
    destruct r1 as [[s|]|e| |]; try (now injection H as <- <-).
    eapply IH; eauto.
Qed.

(** On a reachable state a call of [stmt] returns, a statement or an
    error: it neither panics nor runs past the bound of the model. *)
Corollary stmt_returns src l :
  reachable src l ->
  exists r l', stmt l = (r, l') /\ reachable src l' /\
               r <> Panic /\ r <> OutOfFuel.
Proof.
  intros Hr. pose proof (reachable_wf _ _ Hr) as Hwf.
  destruct (stmt l) as [r l'] eqn:H. exists r, l'.
  destruct (stmt_loop_wf _ _ _ _ H Hwf) as (_ & _ & _ & NP & HT).
  split; [reflexivity|].
  split; [exact (stmt_loop_reachable _ _ _ _ _ Hr H)|].
  split; [exact NP|]. apply HT. unfold rounds. lia.
Qed.


(** *** A stray closing parenthesis *)

Lemma next_ascii l c :
  0 <= pos l ->
  nth_error (input l) (Z.to_nat (pos l)) = Some c -> byteZ c < 128 ->
  next l = (Ok (byteZ c), set_width (set_pos l (pos l + 1)) 1).
Proof.
  intros Hp Hn Hc. unfold next.
  assert (Hlt : (Z.to_nat (pos l) < List.length (input l))%nat).
  { apply nth_error_Some. congruence. }
  destruct (pos l >=? len (input l)) eqn:E; [unfold len in E; lia|].
  rewrite slice_from_Some by (unfold len; lia).
  destruct (nth_error_split _ _ Hn) as (l1 & l2 & Hi & Hlen).
  rewrite Hi at 1. rewrite <- Hlen.
  rewrite skipn_app, skipn_all, Nat.sub_diag. cbn [app skipn].
  now rewrite DecodeRuneInString_ascii.
Qed.

Lemma stmt_iter_close_paren l :
  0 <= pos l ->
  nth_error (input l) (Z.to_nat (pos l)) = Some ")"%char ->
  depth l = 0 ->
  stmt_iter l = (Err (ErrUnexpectedClose (pos l + 1)),
                 set_width (set_pos l (pos l + 1)) 1).
Proof.
  intros Hp Hn Hd. unfold stmt_iter.
  rewrite (next_ascii l ")"%char Hp Hn) by (cbv; reflexivity).
  cbn. now rewrite Hd.
Qed.

(** A [')'] read as the lookahead behind ['-'] or ['/']: the round tests
    nothing but the delimiter at it. *)
Lemma stmt_iter_close_paren_lookahead l c l1 l2 :
  wf l ->
  c = rune_minus \/ c = rune_slash ->
  next l = (Ok c, l1) -> next l1 = (Ok rune_rparen, l2) ->
  depth l2 = depth l /\
  if strings.HasPrefix (skipn (Z.to_nat (pos l1)) (input l)) (delim l)
     && (depth l =? 0)
  then exists s l3, stmt_iter l = (Ok (Some s), l3)
  else stmt_iter l = (Ok None, l2).
Proof.
  intros Hwf Hc N1 N2.
  assert (R : forall a x b, next a = (Ok x, b) -> x <> eos ->
            exists w, 1 <= w <= 4 /\ 0 <= pos a /\ pos a + w <= len (input a) /\
              b = mkLex (input a) (pos a + w) w (start a) (depth a) (delim a)).
  { intros a x b N Hx.
    destruct (next_inv _ _ _ N)
      as [(E & _)|[(E & _)|(c' & w & t & E & _ & Hw & Hp & Hl & _ & _ & ->)]].
    - congruence.
    - discriminate.
    - exists w. auto. }
  assert (Hc' : c <> eos) by (destruct Hc as [->| ->]; discriminate).
  destruct (R _ _ _ N1 Hc') as (w1 & Hw1 & Hp & Hl & E1).
  destruct (R _ _ _ N2 ltac:(discriminate)) as (w2 & Hw2 & Hp1 & Hl1 & E2).
  clear R.
  assert (Hi : input l1 = input l) by (subst l1; reflexivity).
  assert (Hd : depth l1 = depth l) by (subst l1; reflexivity).
  assert (Hs : start l1 = start l) by (subst l1; reflexivity).
  assert (Hdl : delim l1 = delim l) by (subst l1; reflexivity).
  split; [subst l2; cbn; exact Hd|].
  assert (Hstep :
    stmt_iter l =
      match slice_from (input l2) (pos l2 - width l2) with
      | None => (Panic, l2)
      | Some t =>
          if strings.HasPrefix t (delim l2) then
            if depth l2 =? 0 then
              match slice (input l2) (start l2) (pos l2) with
              | None => (Panic, l2)
              | Some stmt =>
                  (Ok (Some stmt),
                   set_pos (set_start l2 (pos l2 - width l2)) (pos l2 + len (delim l2)))
              end
            else (Ok None, l2)
          else (Ok None, l2)
      end).
  { unfold stmt_iter, bind. rewrite N1.
    destruct Hc as [->| ->]; cbn; unfold and_next, bind; cbn; rewrite N2;
      reflexivity. }
  rewrite Hstep. clear Hstep.
  assert (Q : pos l2 - width l2 = pos l1) by (subst l2; cbn; lia).
  assert (Hi2 : input l2 = input l) by (subst l2; cbn; exact Hi).
  assert (Hd2 : depth l2 = depth l) by (subst l2; cbn; exact Hd).
  assert (Hs2 : start l2 = start l) by (subst l2; cbn; exact Hs).
  assert (Hdl2 : delim l2 = delim l) by (subst l2; cbn; exact Hdl).
  assert (Hp2 : pos l2 <= len (input l)) by (subst l2; cbn; rewrite <- Hi; lia).
  assert (Hp12 : pos l1 < pos l2) by (subst l2; cbn; lia).
  assert (Hp01 : pos l < pos l1) by (subst l1; cbn; lia).
  rewrite Q, Hi2, Hdl2, Hd2, Hs2.
  rewrite slice_from_Some by (rewrite <- Hi; lia).
  destruct (strings.HasPrefix _ (delim l)); [|reflexivity].
  destruct (depth l =? 0); [|reflexivity].
  cbn [andb]. rewrite slice_Some by (unfold wf in Hwf; lia).
  eauto.
Qed.

(** C8, amended.  Whenever the rounds of [stmt] come to a state of depth 0
    whose cursor stands on the byte [')'], so that the round reads it as
    its first code point, the call returns the error "unexpected ')'"
    carrying the cursor behind that byte, its offset plus one.  A [')']
    that the round reads as the lookahead behind a ['-'] or a ['/'] raises
    no error: the round returns a statement when the delimiter begins at
    that [')'], and otherwise the call goes on behind it, still at depth
    0. *)
Theorem close_paren_reports_cursor n l0 l :
  wf l0 -> run n l0 = Some l -> depth l = 0 ->
  (nth_error (input l) (Z.to_nat (pos l)) = Some ")"%char ->
   stmt l0 = (Err (ErrUnexpectedClose (pos l + 1)),
              set_width (set_pos l (pos l + 1)) 1)) /\
  (forall c l1 l2,
     c = rune_minus \/ c = rune_slash ->
     next l = (Ok c, l1) -> next l1 = (Ok rune_rparen, l2) ->
     if strings.HasPrefix (skipn (Z.to_nat (pos l1)) (input l)) (delim l)
     then exists s l3, stmt_iter l = (Ok (Some s), l3) /\ stmt l0 = (Ok s, l3)
     else stmt_iter l = (Ok None, l2) /\ depth l2 = 0 /\ stmt l0 = stmt l2).
Proof.
  intros Hwf Hrun Hd.
  destruct (run_wf _ _ _ Hrun Hwf) as (W & _).
  pose proof (stmt_run _ _ _ Hrun Hwf) as E0.
  pose proof (stmt_unfold _ W) as E1.
  split.
  - intros Hn. rewrite E0, E1, stmt_iter_close_paren; auto.
    unfold wf in W. lia.
  - intros c l1 l2 Hc N1 N2.
    destruct (stmt_iter_close_paren_lookahead _ _ _ _ W Hc N1 N2) as (Hd2 & H).
    rewrite Hd in H. cbn [Z.eqb] in H. rewrite andb_true_r in H.
    destruct (strings.HasPrefix _ (delim l)).
    + destruct H as (s & l3 & H). exists s, l3. split; [exact H|].
      rewrite E0, E1, H. reflexivity.
    + split; [exact H|]. split; [congruence|].
      rewrite E0, E1, H. reflexivity.
Qed.

(** *** The lookahead after ['-'] and ['/'] *)

Lemma next_read l c l1 :
  next l = (Ok c, l1) -> c <> eos ->
  exists w, 1 <= w <= 4 /\ 0 <= pos l /\ pos l + w <= len (input l) /\
            l1 = mkLex (input l) (pos l + w) w (start l) (depth l) (delim l).
Proof.
  intros N Hc.
  destruct (next_inv _ _ _ N) as [(E & _)|[(E & _)|(c' & w & t & E & _ & Hw & Hp & Hl & _ & _ & ->)]].
  - congruence.
  - discriminate.
  - exists w. auto.
Qed.

(** C4, amended.  After ['-'] or ['/'] and a following code point [r2] that
    does not complete the comment marker, the round opens no parenthesis and
    skips no quote, whatever [r2] is: the depth is unchanged.  But the
    delimiter test is made at the start of [r2]: when the delimiter begins
    there and the depth is 0 the round returns a statement, otherwise the
    loop goes on in the state behind [r2]. *)
Theorem lookahead_tests_delimiter l c l1 r2 l2 :
  wf l ->
  c = rune_minus \/ c = rune_slash ->
  next l = (Ok c, l1) ->
  next l1 = (Ok r2, l2) -> r2 <> eos ->
  r2 <> marker_second c ->
  depth l2 = depth l /\
  exists t, slice_from (input l) (pos l1) = Some t /\
    if strings.HasPrefix t (delim l) && (depth l =? 0)
    then exists s l3, stmt_iter l = (Ok (Some s), l3)
    else stmt_iter l = (Ok None, l2).
Proof.
  intros Hwf Hc N1 N2 Hr2 Hm.
  assert (Hc' : c <> eos) by (destruct Hc as [->| ->]; discriminate).
  destruct (next_read _ _ _ N1 Hc') as (w1 & Hw1 & Hp & Hl & E1).
  destruct (next_read _ _ _ N2 Hr2) as (w2 & Hw2 & Hp1 & Hl1 & E2).
  assert (Hi : input l1 = input l) by (subst l1; reflexivity).
  assert (Hd : depth l1 = depth l) by (subst l1; reflexivity).
  assert (Hs : start l1 = start l) by (subst l1; reflexivity).
  assert (Hdl : delim l1 = delim l) by (subst l1; reflexivity).
  split; [subst l2; cbn; exact Hd|].
  exists (skipn (Z.to_nat (pos l1)) (input l)).
  split; [apply slice_from_Some; rewrite <- Hi; lia|].
  assert (Hstep :
    stmt_iter l =
      match slice_from (input l2) (pos l2 - width l2) with
      | None => (Panic, l2)
      | Some t =>
          if strings.HasPrefix t (delim l2) then
            if depth l2 =? 0 then
              match slice (input l2) (start l2) (pos l2) with
              | None => (Panic, l2)
              | Some stmt =>
                  (Ok (Some stmt),
                   set_pos (set_start l2 (pos l2 - width l2)) (pos l2 + len (delim l2)))
              end
            else (Ok None, l2)
          else (Ok None, l2)
      end).
  { unfold stmt_iter, bind. rewrite N1.
    destruct Hc as [->| ->]; cbn in Hm |- *; unfold and_next, bind; cbn; rewrite N2.
    - destruct (r2 =? rune_minus) eqn:E; [apply Z.eqb_eq in E; contradiction|].
      reflexivity.
    - destruct (r2 =? rune_star) eqn:E; [apply Z.eqb_eq in E; contradiction|].
      reflexivity. }
  rewrite Hstep. clear Hstep.
  assert (Q : pos l2 - width l2 = pos l1) by (subst l2; cbn; lia).
  assert (Hi2 : input l2 = input l) by (subst l2; cbn; exact Hi).
  assert (Hd2 : depth l2 = depth l) by (subst l2; cbn; exact Hd).
  assert (Hs2 : start l2 = start l) by (subst l2; cbn; exact Hs).
  assert (Hdl2 : delim l2 = delim l) by (subst l2; cbn; exact Hdl).
  assert (Hp2 : pos l2 <= len (input l)) by (subst l2; cbn; rewrite <- Hi; lia).
  assert (Hp12 : pos l1 < pos l2) by (subst l2; cbn; lia).
  assert (Hp01 : pos l < pos l1) by (subst l1; cbn; lia).
  rewrite Q, Hi2, Hdl2, Hd2, Hs2.
  rewrite slice_from_Some by (rewrite <- Hi; lia).
  destruct (strings.HasPrefix _ (delim l)); [|reflexivity].
  destruct (depth l =? 0); [|reflexivity].
  cbn [andb]. rewrite slice_Some by (unfold wf in Hwf; lia).
  eauto.
Qed.

(** *** The delimiter directive *)

(** C6, amended.  When the trimmed input begins with the marker, the text
    behind the marker is trimmed once more; the part of that trimmed text
    before its first newline is the delimiter, verbatim, and the part after
    that newline is the buffer. *)
Theorem newLex_directive raw rest d b :
  strings.TrimSpace raw = delimComment ++ rest ->
  strings.TrimSpace rest = d ++ LF :: b ->
  ~ In LF d ->
  newLex raw = Ok (fresh b d).
Proof.
  intros H1 H2 Hd. unfold newLex.
  rewrite H1, HasPrefix_app, slice_from_app, H2, (Index_newline _ _ Hd).
  pose proof (len_nonneg d).
  destruct (len d =? -1) eqn:E; [lia|].
  rewrite slice_prefix.
  replace (d ++ LF :: b) with ((d ++ [LF]) ++ b) by now rewrite <- app_assoc.
  replace (len d + 1) with (len (d ++ [LF])) by now rewrite len_app.
  now rewrite slice_from_app.
Qed.

(** *** White space only *)

Lemma indexFunc_loop_ws s :
  whitespace_only s ->
  forall fuel i, strings.indexFunc_loop fuel s i unicode.IsSpace false = -1.
Proof.
  induction 1 as [|c t r w Hd Hs _ IH]; intros [|k] i; try reflexivity.
  cbn [strings.indexFunc_loop]. rewrite Hd, Hs. cbn [Bool.eqb]. apply IH.
Qed.

Lemma IsSpace_ascii r :
  r < 128 -> unicode.IsSpace r = true -> strings.asciiSpace r = true.
Proof.
  unfold unicode.IsSpace, strings.asciiSpace, unicode.MaxLatin1. intros Hr.
  destruct ((0 <=? r) && (r <=? 255)) eqn:E.
  - destruct (r =? 133) eqn:E1; [lia|]. destruct (r =? 160) eqn:E2; [lia|].
    now rewrite !orb_false_r.
  - apply andb_false_iff in E. intros H.
    repeat (apply orb_true_iff in H as [H|H]); try apply andb_true_iff in H as [H H'];
      lia.
Qed.

Lemma TrimSpace_start_ws s :
  whitespace_only s ->
  strings.TrimSpace_start s = inl [] \/ strings.TrimSpace_start s = inr [].
Proof.
  induction 1 as [|c t r w Hd Hs Hws IH]; [now left|].
  cbn [strings.TrimSpace_start].
  destruct (byteZ c >=? utf8.RuneSelf) eqn:E.
  - right. unfold strings.TrimFunc, strings.TrimLeftFunc, strings.indexFunc.
    rewrite indexFunc_loop_ws by (econstructor; eauto). reflexivity.
  - unfold utf8.RuneSelf in E.
    rewrite DecodeRuneInString_ascii in Hd by lia.
    injection Hd as <- <-.
    rewrite (IsSpace_ascii (byteZ c) ltac:(lia) Hs). exact IH.
Qed.

Lemma TrimSpace_ws s : whitespace_only s -> strings.TrimSpace s = [].
Proof.
  intros H. unfold strings.TrimSpace.
  now destruct (TrimSpace_start_ws _ H) as [-> | ->].
Qed.

(** C9.  On an input that is empty or made of white space only, [newLex]
    builds a lexer on the empty buffer, the first call of [stmt] returns
    [io.EOF] at once, and [stmts] returns no statement and no error. *)
Theorem whitespace_only_no_statements raw :
  whitespace_only raw ->
  newLex raw = Ok (fresh [] (bytes ";")) /\
  stmt (fresh [] (bytes ";")) = (Err io_EOF, fresh [] (bytes ";")) /\
  forall fuel, stmts (S fuel) raw = Ok [].
Proof.
  intros H.
  assert (N : newLex raw = Ok (fresh [] (bytes ";"))).
  { unfold newLex. now rewrite (TrimSpace_ws _ H). }
  split; [exact N|]. split; [reflexivity|].
  intros fuel. unfold stmts. now rewrite N.
Qed.

(** *** What [stmts] can return *)

Lemma stmt_loop_post f : forall l r l',
  wf l -> stmt_loop f l = (r, l') ->
  (forall s, r = Ok s -> start l' < pos l') /\
  (start l < pos l -> r <> Err io_EOF).
Proof.
  induction f as [|k IH]; intros l r l' Hwf H.
  - cbn in H. injection H as <- <-. split; [discriminate|discriminate].
  - cbn [stmt_loop] in H. unfold bind in H.
    destruct (stmt_iter l) as [r1 l1] eqn:I.
    destruct (stmt_iter_wf _ _ _ I Hwf) as (W1 & Hi & Hd & Hpost).
    destruct r1 as [[s|]|e| |]; cbn in Hpost; try contradiction.
    + injection H as <- <-. split; [intros; lia|discriminate].
    + destruct (IH _ _ _ W1 H) as (A & B). split; [exact A|].
      intros Hlt. apply B. lia.
    + injection H as <- <-. split; [discriminate|].
      intros Hlt [= ->]. destruct Hpost as (_ & Hp). specialize (Hp eq_refl). lia.
Qed.

Lemma stmts_loop_never_returns fuel : forall l acc ss,
  wf l -> start l < pos l -> stmts_loop fuel l acc <> Ok ss.
Proof.
  induction fuel as [|k IH]; intros l acc ss Hwf Hlt; [discriminate|].
  cbn [stmts_loop].
  destruct (stmt l) as [r l'] eqn:H.
  destruct (stmt_loop_post _ _ _ _ Hwf H) as (A & B).
  destruct (stmt_loop_wf _ _ _ _ H Hwf) as (W & _).
  destruct r as [s|e| |]; try discriminate.
  - apply IH; [exact W | exact (A _ eq_refl)].
  - destruct e; try discriminate. now specialize (B Hlt).
Qed.

Lemma stmts_returns_no_statement fuel src ss :
  stmts fuel src = Ok ss -> ss = [].
Proof.
  unfold stmts. destruct (newLex src) as [l|e| |] eqn:N; try discriminate.
  destruct (newLex_fresh _ _ N) as (b & d & ->).
  destruct fuel as [|k]; [discriminate|].
  cbn [stmts_loop].
  destruct (stmt (fresh b d)) as [r l'] eqn:H.
  destruct (stmt_loop_post _ _ _ _ (wf_fresh b d) H) as (A & _).
  destruct (stmt_loop_wf _ _ _ _ H (wf_fresh b d)) as (W & _).
  destruct r as [s|e| |]; try discriminate.
  - intros Hs. exfalso. exact (stmts_loop_never_returns _ _ _ _ W (A _ eq_refl) Hs).
  - destruct e; try discriminate. now intros [= <-].
Qed.

Lemma stmt_at_end l :
  len (input l) <= pos l -> depth l = 0 -> 0 <= start l < pos l ->
  start l <= len (input l) ->
  stmt l = (Ok (skipn (Z.to_nat (start l)) (input l)), l).
Proof.
  intros He Hd Hs Hl. unfold stmt, rounds. cbn [stmt_loop].
  rewrite (stmt_iter_eos _ He), Hd. cbn.
  destruct (pos l >? start l) eqn:E; [|lia].
  now rewrite slice_from_Some by lia.
Qed.

Lemma stmts_loop_repeats fuel : forall l acc,
  len (input l) <= pos l -> depth l = 0 -> 0 <= start l < pos l ->
  start l <= len (input l) ->
  stmts_loop fuel l acc = OutOfFuel.
Proof.
  induction fuel as [|k IH]; intros l acc He Hd Hs Hl; [reflexivity|].
  cbn [stmts_loop]. rewrite (stmt_at_end _ He Hd Hs Hl). now apply IH.
Qed.

(** *** What the rounds do by construction *)

Lemma stmt_iter_nested l s l' :
  wf l -> 0 < depth l -> stmt_iter l <> (Ok (Some s), l').
Proof.
  intros Hwf Hd H.
  destruct (stmt_iter_wf _ _ _ H Hwf) as (_ & _ & _ & Hpost). cbn in Hpost. lia.
Qed.

Lemma stmt_iter_quote l q l1 :
  next l = (Ok q, l1) -> quote_rune q = true ->
  stmt_iter l = bind (skipQuote q l1) (fun _ l2 => (Ok None, l2)).
Proof.
  intros N Hq. unfold stmt_iter, bind at 1. rewrite N.
  unfold quote_rune in Hq.
  assert (q = rune_squote \/ q = rune_dquote \/ q = rune_backtick) as [->|[->| ->]];
    [|reflexivity..].
  repeat (apply orb_true_iff in Hq as [Hq|Hq]); apply Z.eqb_eq in Hq; auto.
Qed.

Lemma stmt_iter_line_comment l l1 l2 t :
  next l = (Ok rune_minus, l1) -> next l1 = (Ok rune_minus, l2) ->
  slice_from (input l2) (pos l2) = Some t ->
  stmt_iter l =
    (Ok None,
     if strings.Index t [LF] =? -1 then l2
     else set_pos l2 (pos l2 + (strings.Index t [LF] + 1))).
Proof.
  intros N1 N2 Ht. unfold stmt_iter, bind. rewrite N1. cbn.
  unfold and_next, bind. cbn. rewrite N2. cbn. rewrite Ht.
  now destruct (strings.Index t [LF] =? -1).
Qed.

Lemma stmt_iter_block_comment l l1 l2 t :
  next l = (Ok rune_slash, l1) -> next l1 = (Ok rune_star, l2) ->
  slice_from (input l2) (pos l2) = Some t ->
  stmt_iter l =
    if strings.Index t (bytes "*/") <? 0
    then (Err (ErrUnclosedComment (pos l2)), l2)
    else (Ok None, set_pos l2 (pos l2 + (strings.Index t (bytes "*/") + 2))).
Proof.
  intros N1 N2 Ht. unfold stmt_iter, bind. rewrite N1. cbn.
  unfold and_next, bind. cbn. rewrite N2. cbn. now rewrite Ht.
Qed.

Lemma stmt_iter_boundary l c l1 :
  wf l -> next l = (Ok c, l1) -> ordinary c = true ->
  strings.HasPrefix (skipn (Z.to_nat (pos l)) (input l)) (delim l) = true ->
  depth l = 0 ->
  stmt_iter l =
    (Ok (Some (firstn (Z.to_nat (pos l1 - start l))
                      (skipn (Z.to_nat (start l)) (input l)))),
     mkLex (input l) (pos l1 + len (delim l)) (width l1) (pos l) 0 (delim l)).
Proof.
  intros Hwf N Hc Hpre Hd.
  unfold ordinary, quote_rune in Hc. apply negb_true_iff in Hc.
  rewrite !orb_false_iff in Hc.
  destruct Hc as (((((E1 & E2) & E3) & (E4 & E5) & E6) & E7) & E8).
  assert (Hc' : c <> eos) by (apply Z.eqb_neq; assumption).
  destruct (next_read _ _ _ N Hc') as (w & Hw & Hp & Hl & ->).
  unfold stmt_iter, bind. rewrite N.
  unfold and_next, bind. rewrite E1, E2, E3, E4, E5, E6, E7, E8.
  cbn -[Z.sub Z.add].
  replace (pos l + w - w) with (pos l) by lia.
  rewrite slice_from_Some by lia. rewrite Hpre, Hd. cbn -[Z.sub Z.add].
  rewrite slice_Some by (unfold wf in Hwf; lia).
  reflexivity.
Qed.

(** * The properties on concrete files *)

(** ** Instances of the theorems above *)

(** C7 on [SELECT (1]: nine rounds bring the cursor to the end of the input
    with one parenthesis open. *)
Lemma stmt_unclosed_parens_witness :
  stmt (fresh (bytes "SELECT (1") (bytes ";")) =
    (Err ErrUnclosedParens, mkLex (bytes "SELECT (1") 9 1 0 1 (bytes ";")).
Proof.
  apply (stmt_unclosed_parens 9).
  - apply wf_fresh.
  - vm_compute. reflexivity.
  - vm_compute. discriminate.
  - vm_compute. reflexivity.
Defined.


(** C8 as worded fails on [SELECT )1]: the parenthesis is the byte at
    offset 7 and the error carries 8. *)
Lemma close_paren_reports_its_offset_fails : ~ close_paren_reports_its_offset.
Proof.
  intros H.
  specialize (H (mkLex (bytes "SELECT )1") 7 1 0 0 (bytes ";")) 7).
  vm_compute in H.
  assert (E : Err (A := gostring) (ErrUnexpectedClose 8) = Err (ErrUnexpectedClose 7)).
  { apply H; try reflexivity. discriminate. }
  discriminate E.
Qed.

(** C8, amended, on [SELECT )1], where the [')'] is read at the head of a
    round, and on [-)], where it is read as the lookahead behind the
    ['-']. *)
Lemma close_paren_reports_cursor_witness :
  stmt (fresh (bytes "SELECT )1") (bytes ";")) =
    (Err (ErrUnexpectedClose 8), mkLex (bytes "SELECT )1") 8 1 0 0 (bytes ";")) /\
  (stmt_iter (fresh (bytes "-)") (bytes ";")) =
     (Ok None, mkLex (bytes "-)") 2 1 0 0 (bytes ";")) /\
   depth (mkLex (bytes "-)") 2 1 0 0 (bytes ";")) = 0 /\
   stmt (fresh (bytes "-)") (bytes ";")) =
     stmt (mkLex (bytes "-)") 2 1 0 0 (bytes ";"))).
Proof.
  split.
  - apply (close_paren_reports_cursor 7 (fresh (bytes "SELECT )1") (bytes ";"))
             (mkLex (bytes "SELECT )1") 7 1 0 0 (bytes ";"))).
    + apply wf_fresh.
    + vm_compute. reflexivity.
    + reflexivity.
    + vm_compute. reflexivity.
  - exact (proj2 (close_paren_reports_cursor 0 (fresh (bytes "-)") (bytes ";"))
                    (fresh (bytes "-)") (bytes ";")) (wf_fresh _ _) eq_refl eq_refl)
                 rune_minus (mkLex (bytes "-)") 1 1 0 0 (bytes ";"))
                 (mkLex (bytes "-)") 2 1 0 0 (bytes ";")) (or_introl eq_refl)
                 eq_refl eq_refl).
Defined.

(** C4 as worded fails on [-;x]: the [';'] read as lookahead behind the
    ['-'] begins a delimiter match, and the round returns a statement. *)
Lemma lookahead_inert_fails : ~ lookahead_inert.
Proof.
  intros H.
  specialize (H (fresh (bytes "-;x") (bytes ";")) rune_minus
                (mkLex (bytes "-;x") 1 1 0 0 (bytes ";")) 59
                (mkLex (bytes "-;x") 2 1 0 0 (bytes ";"))).
  assert (E : stmt_iter (fresh (bytes "-;x") (bytes ";")) =
              (Ok None, mkLex (bytes "-;x") 2 1 0 0 (bytes ";"))).
  { apply H; try (vm_compute; reflexivity); try (vm_compute; discriminate).
    now left. }
  vm_compute in E. discriminate E.
Qed.

(** A consequence of the place of the delimiter test: a delimiter that
    begins with ['-'] is not found where it stands.  On [a-xb] with the
    delimiter [-x] the first call of [stmt] hands back the whole buffer. *)
Example delimiter_behind_minus_is_missed :
  stmt (fresh (bytes "a-xb") (bytes "-x")) =
    (Ok (bytes "a-xb"), mkLex (bytes "a-xb") 4 1 0 0 (bytes "-x")).
Proof. vm_compute. reflexivity. Qed.

(** C4, amended, on [-(;x]: the ['('] read as lookahead opens nothing, and
    no delimiter begins at it. *)
Lemma lookahead_tests_delimiter_witness :
  depth (mkLex (bytes "-(;x") 2 1 0 0 (bytes ";")) = 0 /\
  exists t, slice_from (bytes "-(;x") 1 = Some t /\
    stmt_iter (fresh (bytes "-(;x") (bytes ";")) =
      (Ok None, mkLex (bytes "-(;x") 2 1 0 0 (bytes ";")).
Proof.
  destruct (lookahead_tests_delimiter
              (fresh (bytes "-(;x") (bytes ";")) rune_minus
              (mkLex (bytes "-(;x") 1 1 0 0 (bytes ";")) rune_lparen
              (mkLex (bytes "-(;x") 2 1 0 0 (bytes ";"))
              (wf_fresh _ _) (or_introl eq_refl) eq_refl eq_refl
              ltac:(discriminate) ltac:(discriminate)) as (Hd & t & Ht & Hs).
  split; [exact Hd|]. exists t. split; [exact Ht|].
  vm_compute in Ht. injection Ht as <-. exact Hs.
Defined.

(** C6 as worded fails on a directive with two spaces behind the marker
    word: the text between the marker and the newline is [ $$], the
    delimiter of the lexer is [$$]. *)
Lemma directive_verbatim_fails : ~ directive_verbatim.
Proof.
  intros H.
  specialize (H (bytes "//atlas:delimiter  $$" ++ LF :: bytes "A")
                (bytes " $$") (bytes "A")).
  assert (E : newLex (bytes "//atlas:delimiter  $$" ++ LF :: bytes "A") =
              Ok (fresh (bytes "A") (bytes " $$"))).
  { apply H; [vm_compute; reflexivity|].
    cbn. intros [E|[E|[E|[]]]]; discriminate E. }
  vm_compute in E. discriminate E.
Qed.

(** C6, amended, on a directive followed by two statements. *)
Lemma newLex_directive_witness :
  newLex (bytes "  //atlas:delimiter  $$" ++ LF :: bytes "A$$" ++ LF :: bytes "B$$ ") =
    Ok (fresh (bytes "A$$" ++ LF :: bytes "B$$") (bytes "$$")).
Proof.
  apply (newLex_directive _ (bytes " $$" ++ LF :: bytes "A$$" ++ LF :: bytes "B$$")).
  - vm_compute. reflexivity.
  - vm_compute. reflexivity.
  - cbn. intros [E|[E|[]]]; discriminate E.
Defined.

(** C9 on a space, a tab, a no-break space (U+00A0) and a newline. *)
Lemma whitespace_only_no_statements_witness :
  newLex [" "%char; TAB; "194"%char; "160"%char; LF] = Ok (fresh [] (bytes ";")) /\
  stmt (fresh [] (bytes ";")) = (Err io_EOF, fresh [] (bytes ";")) /\
  forall fuel, stmts (S fuel) [" "%char; TAB; "194"%char; "160"%char; LF] = Ok [].
Proof.
  apply whitespace_only_no_statements.
  eapply ws_rune; [vm_compute; reflexivity | reflexivity | cbn [skipn Z.to_nat Pos.to_nat Pos.iter_op Nat.add]].
  eapply ws_rune; [vm_compute; reflexivity | reflexivity | cbn [skipn Z.to_nat Pos.to_nat Pos.iter_op Nat.add]].
  eapply ws_rune; [vm_compute; reflexivity | reflexivity | cbn [skipn Z.to_nat Pos.to_nat Pos.iter_op Nat.add]].
  eapply ws_rune; [vm_compute; reflexivity | reflexivity | cbn [skipn Z.to_nat Pos.to_nat Pos.iter_op Nat.add]].
  apply ws_nil.
Defined.

(** ** Files on which the splitter leaves its contract *)

(** C1.  On [a;b] the first call of [stmt] hands back [a;], with the
    delimiter in it, puts [start] on the delimiter (offset 1) and the cursor
    one byte behind it (offset 3); the next call hands back [;b].  With the
    delimiter [$$] the file [a$$b] gives [a$] and then [$$b]. *)
Theorem stmt_keeps_delimiter_on_a_b :
  stmt (fresh (bytes "a;b") (bytes ";")) =
    (Ok (bytes "a;"), mkLex (bytes "a;b") 3 1 1 0 (bytes ";")) /\
  stmt (mkLex (bytes "a;b") 3 1 1 0 (bytes ";")) =
    (Ok (bytes ";b"), mkLex (bytes "a;b") 3 1 1 0 (bytes ";")) /\
  stmt (fresh (bytes "a$$b") (bytes "$$")) =
    (Ok (bytes "a$"), mkLex (bytes "a$$b") 4 1 1 0 (bytes "$$")) /\
  stmt (mkLex (bytes "a$$b") 4 1 1 0 (bytes "$$")) =
    (Ok (bytes "$$b"), mkLex (bytes "a$$b") 4 1 1 0 (bytes "$$")).
Proof.
  split; [vm_compute; reflexivity|].
  split; [vm_compute; reflexivity|].
  split; vm_compute; reflexivity.
Qed.

(** C2.  On [a;b], two segments joined by the default delimiter, [stmts]
    does not return, whatever the bound: behind the first statement every
    call of [stmt] hands back [;b] again. *)
Theorem stmts_loops_on_a_b :
  forall fuel, stmts fuel (bytes "a;b") = OutOfFuel.
Proof.
  intros fuel. unfold stmts.
  replace (newLex (bytes "a;b")) with (Ok (fresh (bytes "a;b") (bytes ";")))
    by (vm_compute; reflexivity).
  destruct fuel as [|k]; [reflexivity|].
  cbn [stmts_loop].
  replace (stmt (fresh (bytes "a;b") (bytes ";")))
    with (Ok (bytes "a;"), mkLex (bytes "a;b") 3 1 1 0 (bytes ";"))
    by (vm_compute; reflexivity).
  apply stmts_loop_repeats; vm_compute; try split; congruence.
Qed.

(** C3.  On [a;'b;c'] the second call of [stmt] cuts at the [';'] inside the
    quoted literal, on [a;(b;c)] at the one inside the parentheses and on
    [x;/* a;b */] at the one inside the block comment: the byte behind the
    first delimiter, the opening quote, parenthesis or slash, is never read.
    On [SELECT 'a;b'] the literal is not cut, but [stmts] does not return. *)
Theorem delimiter_in_literal_cuts :
  stmt (fresh (bytes "a;'b;c'") (bytes ";")) =
    (Ok (bytes "a;"), mkLex (bytes "a;'b;c'") 3 1 1 0 (bytes ";")) /\
  stmt (mkLex (bytes "a;'b;c'") 3 1 1 0 (bytes ";")) =
    (Ok (bytes ";'b;"), mkLex (bytes "a;'b;c'") 6 1 4 0 (bytes ";")) /\
  stmt (mkLex (bytes "a;(b;c)") 3 1 1 0 (bytes ";")) =
    (Ok (bytes ";(b;"), mkLex (bytes "a;(b;c)") 6 1 4 0 (bytes ";")) /\
  stmt (mkLex (bytes "x;/* a;b */") 3 1 1 0 (bytes ";")) =
    (Ok (bytes ";/* a;"), mkLex (bytes "x;/* a;b */") 8 1 6 0 (bytes ";")) /\
  stmts 3 (bytes "a;'b;c'") = Err (ErrUnclosedQuote rune_squote) /\
  stmts 3 (bytes "a;(b;c)") = Err (ErrUnexpectedClose 7) /\
  forall fuel, stmts fuel (bytes "SELECT 'a;b'") = OutOfFuel.
Proof.
  do 6 (split; [vm_compute; reflexivity|]).
  intros fuel. unfold stmts.
  replace (newLex (bytes "SELECT 'a;b'"))
    with (Ok (fresh (bytes "SELECT 'a;b'") (bytes ";")))
    by (vm_compute; reflexivity).
  destruct fuel as [|k]; [reflexivity|].
  cbn [stmts_loop].
  replace (stmt (fresh (bytes "SELECT 'a;b'") (bytes ";")))
    with (Ok (bytes "SELECT 'a;b'"), mkLex (bytes "SELECT 'a;b'") 12 1 0 0 (bytes ";"))
    by (vm_compute; reflexivity).
  apply stmts_loop_repeats; vm_compute; try split; congruence.
Qed.

(** C5.  On [-- a;b], a line comment with no newline behind it, the round
    that reads the marker leaves the cursor behind the marker (offset 2, not
    the end of the input), and the call of [stmt] cuts at the [';'] of the
    comment; on [-- it's] the quote of the comment is taken for the start of
    a literal. *)
Theorem line_comment_at_end_is_scanned :
  stmt_iter (fresh (bytes "-- a;b") (bytes ";")) =
    (Ok None, mkLex (bytes "-- a;b") 2 1 0 0 (bytes ";")) /\
  stmt (fresh (bytes "-- a;b") (bytes ";")) =
    (Ok (bytes "-- a;"), mkLex (bytes "-- a;b") 6 1 4 0 (bytes ";")) /\
  stmts 1 (bytes "-- it's") = Err (ErrUnclosedQuote rune_squote).
Proof.
  split; [vm_compute; reflexivity|].
  split; vm_compute; reflexivity.
Qed.

(** * Further properties *)

(** ** More on the decoder *)

Lemma land_le a b : 0 <= a -> 0 <= b -> Z.land a b <= a.
Proof.
  intros Ha Hb.
  pose proof (Z.add_lor_land (Z.ldiff a b) (Z.land a b)) as H.
  rewrite Z.lor_ldiff_and in H.
  replace (Z.land (Z.ldiff a b) (Z.land a b)) with 0 in H.
  - assert (0 <= Z.ldiff a b) by (apply Z.ldiff_nonneg; lia). lia.
  - symmetry. apply Z.bits_inj'. intros n Hn.
    rewrite !Z.land_spec, Z.ldiff_spec, Z.bits_0.
    destruct (Z.testbit a n), (Z.testbit b n); reflexivity.
Qed.

Lemma lor_lower a b : 0 <= a -> 0 <= b -> a <= Z.lor a b /\ b <= Z.lor a b.
Proof.
  intros Ha Hb. pose proof (Z.add_lor_land a b).
  pose proof (land_le a b Ha Hb). pose proof (land_le b a Hb Ha).
  rewrite (Z.land_comm b a) in *. lia.
Qed.

Lemma land_low_bits a n :
  0 <= n -> Z.land a (Z.ones n) = a mod 2 ^ n.
Proof. apply Z.land_ones. Qed.

(** A code point of several bytes is not below 128, and none of its bytes
    is; a code point of one byte is that byte when the byte is below 128 and
    [RuneError] otherwise. *)
Lemma DecodeRuneInString_cases c t r w :
  utf8.DecodeRuneInString (c :: t) = (r, w) ->
  (byteZ c < 128 /\ r = byteZ c /\ w = 1) \/
  (128 <= byteZ c /\ r = utf8.RuneError /\ w = 1) \/
  (1 < w /\ 128 <= r /\
   forall i, (i < Z.to_nat w)%nat -> 128 <= byteAt (c :: t) i).
Proof.
  unfold utf8.DecodeRuneInString.
  rewrite len_cons. pose proof (len_nonneg t).
  destruct (len t + 1 <? 1) eqn:E0; [lia|].
  change (byteAt (c :: t) 0) with (byteZ c).
  pose proof (byteZ_range c) as B0.
  pose proof (byteZ_range (nth 1 (c :: t) zero)) as B1. fold (byteAt (c :: t) 1) in B1.
  pose proof (byteZ_range (nth 2 (c :: t) zero)) as B2. fold (byteAt (c :: t) 2) in B2.
  pose proof (byteZ_range (nth 3 (c :: t) zero)) as B3. fold (byteAt (c :: t) 3) in B3.
  assert (A0 : byteAt (c :: t) 0 = byteZ c) by reflexivity.
  remember (byteZ c) as s0 eqn:Q0.
  remember (byteAt (c :: t) 1) as s1 eqn:Q1.
  remember (byteAt (c :: t) 2) as s2 eqn:Q2.
  remember (byteAt (c :: t) 3) as s3 eqn:Q3.
  assert (L31 : Z.land s0 31 = s0 mod 32) by (apply (Z.land_ones s0 5); lia).
  assert (L15 : Z.land s0 15 = s0 mod 16) by (apply (Z.land_ones s0 4); lia).
  assert (L7 : Z.land s0 7 = s0 mod 8) by (apply (Z.land_ones s0 3); lia).
  assert (L63 : Z.land s1 63 = s1 mod 64) by (apply (Z.land_ones s1 6); lia).
  assert (M2 : 0 <= Z.land s2 63) by (apply Z.land_nonneg; lia).
  assert (M3 : 0 <= Z.land s3 63) by (apply Z.land_nonneg; lia).
  assert (S6 : forall a, Z.shiftl a 6 = a * 64) by (intros; apply (Z.shiftl_mul_pow2 a 6); lia).
  assert (S12 : forall a, Z.shiftl a 12 = a * 4096) by (intros; apply (Z.shiftl_mul_pow2 a 12); lia).
  assert (S18 : forall a, Z.shiftl a 18 = a * 262144) by (intros; apply (Z.shiftl_mul_pow2 a 18); lia).
  remember (Z.lor (Z.shiftl (Z.land s0 31) 6) (Z.land s1 63)) as r2 eqn:R2.
  remember (Z.lor (Z.lor (Z.shiftl (Z.land s0 15) 12) (Z.shiftl (Z.land s1 63) 6)) (Z.land s2 63)) as r3 eqn:R3.
  remember (Z.lor (Z.lor (Z.lor (Z.shiftl (Z.land s0 7) 18) (Z.shiftl (Z.land s1 63) 12)) (Z.shiftl (Z.land s2 63) 6)) (Z.land s3 63)) as r4 eqn:R4.
  rewrite L31, L63, !S6 in R2.
  rewrite L15, L63, !S6, !S12 in R3.
  rewrite L7, L63, !S6, !S12, !S18 in R4.
  assert (P0 : 0 <= s0 mod 32 /\ 0 <= s0 mod 16 /\ 0 <= s0 mod 8 /\ 0 <= s1 mod 64)
    by (Z.div_mod_to_equations; lia).
  assert (LB2 : s0 mod 32 * 64 <= r2).
  { subst r2. apply lor_lower; lia. }
  assert (LB3 : s0 mod 16 * 4096 <= r3 /\ s1 mod 64 * 64 <= r3).
  { subst r3.
    assert (0 <= Z.lor (s0 mod 16 * 4096) (s1 mod 64 * 64)) by (apply Z.lor_nonneg; lia).
    pose proof (lor_lower (Z.lor (s0 mod 16 * 4096) (s1 mod 64 * 64)) (Z.land s2 63)).
    pose proof (lor_lower (s0 mod 16 * 4096) (s1 mod 64 * 64)). lia. }
  assert (LB4 : s0 mod 8 * 262144 <= r4 /\ s1 mod 64 * 4096 <= r4).
  { subst r4.
    assert (0 <= Z.lor (s0 mod 8 * 262144) (s1 mod 64 * 4096)) by (apply Z.lor_nonneg; lia).
    assert (0 <= Z.land s2 63 * 64) by lia.
    assert (0 <= Z.lor (Z.lor (s0 mod 8 * 262144) (s1 mod 64 * 4096)) (Z.land s2 63 * 64))
      by (apply Z.lor_nonneg; lia).
    pose proof (lor_lower (Z.lor (Z.lor (s0 mod 8 * 262144) (s1 mod 64 * 4096)) (Z.land s2 63 * 64)) (Z.land s3 63)).
    pose proof (lor_lower (Z.lor (s0 mod 8 * 262144) (s1 mod 64 * 4096)) (Z.land s2 63 * 64)).
    pose proof (lor_lower (s0 mod 8 * 262144) (s1 mod 64 * 4096)). lia. }
  clear R2 R3 R4 S6 S12 S18 L31 L15 L7 L63.
  unfold utf8.first.
  destruct (s0 <? 128) eqn:C1.
  { cbn -[Z.ldiff Z.lor]. rewrite Z.ldiff_0_r, Z.lor_0_r. intros [= <- <-]. left. split; [lia|]. split; reflexivity. }
  destruct (s0 <? 194) eqn:C2.
  { cbn -[Z.ldiff Z.lor]. rewrite Z.ldiff_m1_r. intros [= <- <-]. right; left. split; [lia|]. split; reflexivity. }
  assert (W1 : (utf8.RuneError, 1) = (r, w) ->
     s0 < 128 /\ r = s0 /\ w = 1 \/
     128 <= s0 /\ r = utf8.RuneError /\ w = 1 \/
     1 < w /\ 128 <= r /\ (forall i : nat, (i < Z.to_nat w)%nat -> 128 <= byteAt (c :: t) i)).
  { intros [= <- <-]. right; left. split; [lia|]. split; reflexivity. }
  destruct (s0 <? 224) eqn:C3; [|destruct (s0 =? 224) eqn:C4; [|destruct (s0 <? 237) eqn:C5;
    [|destruct (s0 =? 237) eqn:C6; [|destruct (s0 <? 240) eqn:C7; [|destruct (s0 =? 240) eqn:C8;
    [|destruct (s0 <? 244) eqn:C9; [|destruct (s0 =? 244) eqn:C10]]]]]]];
  cbn -[len Z.ltb Z.leb]; rewrite ?Z.ldiff_m1_r; cbn -[len Z.ltb Z.leb];
  repeat match goal with
         | |- context [if ?b then _ else _] => let E := fresh "E" in destruct b eqn:E
         end;
  try (exact W1).
  all: intros [= <- <-]; right; right.
  all: repeat match goal with
              | H : (_ || _)%bool = false |- _ => apply orb_false_iff in H as [? ?]
              end.
  all: try (exfalso; lia).
  all: split; [lia|]; split.
  all: try (intros i Hi;
            assert (i = 0 \/ i = 1 \/ i = 2 \/ i = 3)%nat as [->|[->|[->| ->]]] by lia;
            rewrite <- ?Q1, <- ?Q2, <- ?Q3, ?A0; lia).
  all: Z.div_mod_to_equations; lia.
Qed.

(** ** [next] on the bytes of the buffer *)

Lemma nth_skipn_add (s : gostring) n i :
  nth i (skipn n s) zero = nth (n + i) s zero.
Proof.
  revert s; induction n as [|n IH]; intros s; [reflexivity|].
  destruct s as [|c s]; cbn; [now destruct i|apply IH].
Qed.

Lemma byteZ_inj c c' : byteZ c = byteZ c' -> c = c'.
Proof.
  unfold byteZ. intros H. apply N2Z.inj in H.
  rewrite <- (ascii_N_embedding c), <- (ascii_N_embedding c'). now rewrite H.
Qed.

(** X1.  [next] hands back a rune below 128 exactly when the byte under the
    cursor is below 128; the rune is then that byte and the cursor moves by
    one.  Every further byte that one call of [next] takes is 128 or above:
    a quote, parenthesis, backslash or other ASCII byte of the buffer is
    never swallowed into the code point before it, valid UTF-8 or not. *)
Theorem next_reads_ascii_alone l r l' :
  next l = (Ok r, l') -> r <> eos ->
  (r < 128 <-> byteAt (input l) (Z.to_nat (pos l)) < 128) /\
  (r < 128 -> r = byteAt (input l) (Z.to_nat (pos l)) /\ pos l' = pos l + 1) /\
  (forall i, pos l < i < pos l' -> 128 <= byteAt (input l) (Z.to_nat i)).
Proof.
  intros N Hr.
  destruct (next_inv _ _ _ N) as [(E & _)|[(E & _)|(c & w & t & E & Hc & Hw & Hp & Hl & Ht & Hd & ->)]];
    [congruence|discriminate|].
  injection E as ->.
  apply slice_from_inv in Ht as (_ & -> & Hlen).
  destruct (skipn (Z.to_nat (pos l)) (input l)) as [|c0 t] eqn:Es;
    [cbn in Hlen; lia|].
  assert (B : forall i, byteAt (c0 :: t) i = byteAt (input l) (Z.to_nat (pos l) + i)).
  { intros i. unfold byteAt. now rewrite <- Es, nth_skipn_add. }
  assert (B0 : byteZ c0 = byteAt (input l) (Z.to_nat (pos l))).
  { specialize (B 0%nat). rewrite Nat.add_0_r in B. exact B. }
  cbn [pos]. rewrite <- B0.
  destruct (DecodeRuneInString_cases _ _ _ _ Hd) as [(H1 & -> & ->)|[(H1 & -> & ->)|(H1 & H2 & H3)]].
  - split; [tauto|]. split; [intros _; split; [reflexivity|lia]|]. intros i Hi. lia.
  - unfold utf8.RuneError. split; [split; lia|]. split; [lia|]. intros i Hi. lia.
  - split; [split; [lia|]|].
    + intros Hb. specialize (H3 0%nat ltac:(lia)). change (byteAt (c0 :: t) 0) with (byteZ c0) in H3. lia.
    + split; [lia|]. intros i Hi.
      replace (Z.to_nat i) with (Z.to_nat (pos l) + Z.to_nat (i - pos l))%nat by lia.
      rewrite <- B. apply H3. lia.
Qed.

(** X2.  [next] never leaves the buffer.  With the cursor at the end or
    behind it, it hands back [eos] and changes nothing; otherwise it hands
    back a rune that is not [eos], records a width between 1 and 4, and
    moves the cursor by that width to an offset that is at most the length
    of the buffer, also when the buffer ends in the middle of a code
    point.  The other fields are never touched. *)
Theorem next_stays_in_buffer l r l' :
  0 <= pos l -> next l = (r, l') ->
  same l l' /\
  ((len (input l) <= pos l /\ r = Ok eos /\ l' = l) \/
   (pos l < len (input l) /\
    exists c, r = Ok c /\ 0 <= c /\ 1 <= width l' <= 4 /\
              pos l' = pos l + width l' /\ pos l' <= len (input l))).
Proof.
  intros Hp N.
  destruct (next_inv _ _ _ N) as [(-> & -> & H)|[(_ & _ & H)|(c & w & t & -> & Hc & Hw & _ & Hl & _ & _ & ->)]].
  - split; [apply same_refl|]. left. auto.
  - lia.
  - split; [now unfold same|]. right. cbn. split; [lia|].
    exists c. repeat split; lia.
Qed.

(** ** The delimiter directive, continued *)

Lemma Index_absent t : ~ In LF t -> strings.Index t [LF] = -1.
Proof.
  induction t as [|c t IH]; intros Hn; [reflexivity|].
  cbn [strings.Index strings.HasPrefix].
  destruct (Ascii.eqb c LF) eqn:E.
  - apply Ascii.eqb_eq in E. exfalso. apply Hn. now left.
  - cbn [andb]. now rewrite IH by (intros ?; apply Hn; now right).
Qed.

Lemma Index_present t : In LF t -> strings.Index t [LF] <> -1.
Proof.
  induction t as [|c t IH]; intros Hn; [destruct Hn|].
  cbn [strings.Index strings.HasPrefix].
  destruct (Ascii.eqb c LF) eqn:E; cbn [andb]; [lia|].
  destruct Hn as [Hn|Hn]; [subst c; now rewrite Ascii.eqb_refl in E|].
  specialize (IH Hn).
  destruct (Index_range t [LF]) as [Hi|[Hi _]]; [congruence|].
  destruct (strings.Index t [LF] <? 0) eqn:E2; lia.
Qed.

(** The bytes in front of the first newline hold none. *)
Lemma Index_split t :
  0 <= strings.Index t [LF] ->
  exists d b, t = d ++ LF :: b /\ ~ In LF d /\ strings.Index t [LF] = len d.
Proof.
  induction t as [|c t IH]; cbn [strings.Index strings.HasPrefix].
  - lia.
  - destruct (Ascii.eqb c LF) eqn:E; cbn [andb].
    + apply Ascii.eqb_eq in E. subst c. intros _. exists [], t. now repeat split.
    + destruct (strings.Index t [LF] <? 0) eqn:E2; [lia|]. intros _.
      destruct IH as (d & b & -> & Hd & Hl); [lia|].
      exists (c :: d), b. split; [reflexivity|]. split.
      * intros [->|H]; [now rewrite Ascii.eqb_refl in E|auto].
      * rewrite len_cons. lia.
Qed.

Lemma asciiSpace_IsSpace r :
  strings.asciiSpace r = true -> unicode.IsSpace r = true.
Proof.
  unfold strings.asciiSpace. intros H.
  repeat (apply orb_true_iff in H as [H|H]);
    apply Z.eqb_eq in H; subst r; reflexivity.
Qed.

(** [indexFunc] with [unicode.IsSpace]: a byte it stops at is no ASCII
    white space. *)
Lemma indexFunc_loop_head : forall fuel s i,
  strings.indexFunc_loop fuel s i unicode.IsSpace false <> -1 -> 0 <= i ->
  exists k, strings.indexFunc_loop fuel s i unicode.IsSpace false = i + Z.of_nat k /\
    forall c t, skipn k s = c :: t -> strings.asciiSpace (byteZ c) = false.
Proof.
  induction fuel as [|f IH]; intros s i; cbn [strings.indexFunc_loop]; [congruence|].
  destruct s as [|c t]; [congruence|].
  destruct (utf8.DecodeRuneInString (c :: t)) as [r w] eqn:D.
  assert (Hne : c :: t <> []) by discriminate.
  destruct (DecodeRuneInString_bounds _ _ _ Hne D) as (Hw & _ & _).
  destruct (Bool.eqb (unicode.IsSpace r) false) eqn:E.
  - intros _ Hi. exists 0%nat. split; [lia|].
    intros c' t' Hs. change (c :: t = c' :: t') in Hs. injection Hs as <- <-.
    apply eqb_prop in E.
    destruct (strings.asciiSpace (byteZ c)) eqn:A; [|reflexivity].
    destruct (DecodeRuneInString_cases _ _ _ _ D) as [(Hc & -> & _)|[(Hc & _)|(_ & _ & Hb)]].
    + apply asciiSpace_IsSpace in A. congruence.
    + unfold strings.asciiSpace in A.
      repeat (apply orb_true_iff in A as [A|A]); apply Z.eqb_eq in A; lia.
    + specialize (Hb 0%nat ltac:(lia)). unfold byteAt in Hb. cbn [nth] in Hb.
      unfold strings.asciiSpace in A.
      repeat (apply orb_true_iff in A as [A|A]); apply Z.eqb_eq in A; lia.
  - intros Hn Hi.
    destruct (IH _ _ Hn ltac:(lia)) as (k & Hk & Hh).
    exists (Z.to_nat w + k)%nat. split; [lia|].
    intros c' t'. rewrite Nat.add_comm, <- skipn_skipn. apply Hh.
Qed.

Lemma firstn_head {A} m (s : list A) c t :
  firstn m s = c :: t -> exists t', s = c :: t'.
Proof. destruct m, s; cbn; try discriminate. intros [= -> _]. eauto. Qed.

Lemma TrimFunc_head s c t :
  strings.TrimFunc s unicode.IsSpace = c :: t -> strings.asciiSpace (byteZ c) = false.
Proof.
  unfold strings.TrimFunc, strings.TrimRightFunc. intros H.
  apply firstn_head in H as [t' H].
  unfold strings.TrimLeftFunc, strings.indexFunc in H.
  destruct (_ =? -1) eqn:E; [discriminate|].
  apply Z.eqb_neq in E.
  destruct (indexFunc_loop_head _ _ _ E ltac:(lia)) as (k & Hk & Hh).
  rewrite Hk in H. cbn [Z.add] in H. rewrite Nat2Z.id in H. eauto.
Qed.

Lemma TrimSpace_start_head : forall s,
  match strings.TrimSpace_start s with
  | inl u | inr u => forall c t, u = c :: t -> strings.asciiSpace (byteZ c) = false
  end.
Proof.
  induction s as [|c s IH]; cbn [strings.TrimSpace_start]; [discriminate|].
  destruct (byteZ c >=? utf8.RuneSelf) eqn:E.
  - intros c' t'. apply TrimFunc_head.
  - destruct (strings.asciiSpace (byteZ c)) eqn:A; [exact IH|].
    now intros c' t' [= <- <-].
Qed.

Lemma TrimSpace_stop_prefix s : forall n, exists m, strings.TrimSpace_stop s n = firstn m s.
Proof.
  induction n as [|k IH]; cbn [strings.TrimSpace_stop]; [now exists 0%nat|].
  destruct (byteAt s k >=? utf8.RuneSelf).
  - unfold strings.TrimRightFunc. rewrite firstn_firstn. eauto.
  - destruct (strings.asciiSpace (byteAt s k)); [exact IH|eauto].
Qed.

(** What [TrimSpace] returns does not begin with an ASCII white space. *)
Lemma TrimSpace_head s c t :
  strings.TrimSpace s = c :: t -> strings.asciiSpace (byteZ c) = false.
Proof.
  unfold strings.TrimSpace. pose proof (TrimSpace_start_head s) as H.
  destruct (strings.TrimSpace_start s) as [u|u]; [|apply H].
  destruct (TrimSpace_stop_prefix u (List.length u)) as [m ->].
  intros E. apply firstn_head in E as [t' E]. eauto.
Qed.

(** X3.  [newLex] fails in one case only, and then with "invalid
    delimiter": the trimmed input begins with the marker and the text
    behind the marker, trimmed, holds no newline. *)
Theorem newLex_invalid_delimiter raw :
  newLex raw = Err ErrInvalidDelimiter <->
  exists rest, strings.TrimSpace raw = delimComment ++ rest /\
               ~ In LF (strings.TrimSpace rest).
Proof.
  unfold newLex. split.
  - destruct (strings.HasPrefix _ delimComment) eqn:E; [|discriminate].
    apply HasPrefix_inv in E as [rest E]. rewrite E, slice_from_app.
    intros H. exists rest. split; [reflexivity|]. intros Hin.
    apply Index_present in Hin.
    destruct (strings.Index _ [LF] =? -1) eqn:E2; [lia|].
    destruct (slice _ 0 _); [destruct (slice_from _ _)|]; discriminate.
  - intros (rest & -> & Hn).
    rewrite HasPrefix_app, slice_from_app, (Index_absent _ Hn). reflexivity.
Qed.

(** X4.  The lexer [newLex] returns is at its initial state, and its
    delimiter is never empty, holds no newline and does not begin with an
    ASCII white space: it is [;] or the first line behind the marker. *)
Theorem newLex_delimiter raw l :
  newLex raw = Ok l ->
  l = fresh (input l) (delim l) /\
  delim l <> [] /\ ~ In LF (delim l) /\
  (forall c t, delim l = c :: t -> strings.asciiSpace (byteZ c) = false).
Proof.
  unfold newLex.
  destruct (strings.HasPrefix _ delimComment) eqn:E.
  - apply HasPrefix_inv in E as [rest E]. rewrite E, slice_from_app.
    pose proof (TrimSpace_head rest) as Hh.
    destruct (Index_range (strings.TrimSpace rest) [LF]) as [Hi|[Hi _]];
      [now rewrite Hi|].
    destruct (Index_split _ Hi) as (d & b & Ht & Hd & Hl).
    rewrite Hl. pose proof (len_nonneg d).
    destruct (len d =? -1) eqn:E2; [lia|].
    rewrite Ht, slice_prefix.
    replace (d ++ LF :: b) with ((d ++ [LF]) ++ b) by now rewrite <- app_assoc.
    replace (len d + 1) with (len (d ++ [LF])) by now rewrite len_app.
    rewrite slice_from_app. intros [= <-]. cbn [input delim].
    split; [reflexivity|].
    assert (Hc : forall c t, d = c :: t -> strings.asciiSpace (byteZ c) = false).
    { intros c t ->. apply (Hh c (t ++ LF :: b)). now rewrite Ht. }
    split; [|split; [exact Hd|exact Hc]].
    intros ->. specialize (Hh LF b). rewrite Ht in Hh. specialize (Hh eq_refl).
    discriminate.
  - intros [= <-]. cbn [input delim]. split; [reflexivity|].
    split; [discriminate|]. split.
    + cbn. intros [H|[]]. discriminate.
    + intros c t [= <- <-]. reflexivity.
Qed.

(** ** [skipQuote] *)

(** [next] with the cursor in front of the bytes [s]. *)
Lemma next_at l pre s :
  input l = pre ++ s -> pos l = len pre -> s <> [] ->
  next l =
    (Ok (fst (utf8.DecodeRuneInString s)),
     set_width (set_pos l (pos l + snd (utf8.DecodeRuneInString s)))
               (snd (utf8.DecodeRuneInString s))).
Proof.
  intros Hi Hp Hs. unfold next. rewrite Hi, Hp, len_app.
  assert (0 < len s) by (destruct s; [congruence|rewrite len_cons; pose proof (len_nonneg s); lia]).
  pose proof (len_nonneg pre).
  destruct (len pre >=? len pre + len s) eqn:E; [lia|].
  rewrite slice_from_app. now destruct (utf8.DecodeRuneInString s).
Qed.

Lemma escaped_skip qc : forall k body,
  escaped qc body -> (k <= List.length body)%nat ->
  (forall i, (i < k)%nat -> 128 <= byteAt body i) ->
  escaped qc (skipn k body).
Proof.
  induction k as [|k IH]; intros body He Hk Hb; [exact He|].
  destruct He as [|c t Hc1 Hc2 He|c t Hc He].
  - cbn in Hk. lia.
  - cbn [skipn]. apply IH; auto.
    + cbn in Hk. lia.
    + intros i Hi. exact (Hb (S i) ltac:(lia)).
  - specialize (Hb 0%nat ltac:(lia)). cbv in Hb. now contradiction Hb.
Qed.

(** One code point of the body that is neither the quote nor a backslash:
    it ends before the closing quote. *)
Lemma plain_rune qc c t rest r w :
  byteZ qc < 128 -> c <> qc -> c <> "\"%char ->
  utf8.DecodeRuneInString ((c :: t) ++ qc :: rest) = (r, w) ->
  r <> eos /\ r <> rune_backslash /\ r <> byteZ qc /\
  1 <= w /\ (Z.to_nat w <= List.length (c :: t))%nat /\
  forall i, (i < Z.to_nat w - 1)%nat -> 128 <= byteAt t i.
Proof.
  intros Hq Hc1 Hc2 Hd.
  pose proof (byteZ_range c) as Bc. pose proof (byteZ_range qc) as Bq.
  assert (Hn1 : byteZ c <> byteZ qc) by (intros E; now apply byteZ_inj in E).
  assert (Hn2 : byteZ c <> rune_backslash).
  { intros E. apply Hc2. apply byteZ_inj. exact E. }
  cbn [app] in Hd.
  destruct (DecodeRuneInString_cases _ _ _ _ Hd) as [(H1 & -> & ->)|[(H1 & -> & ->)|(H1 & H2 & H3)]].
  - unfold eos. repeat split; try lia. cbn. lia.
  - unfold eos, utf8.RuneError, rune_backslash. repeat split; try lia. cbn; lia.
  - assert (Hle : (Z.to_nat w <= List.length (c :: t))%nat).
    { (* the closing quote is below 128, so the code point ends before it *)
      destruct (Nat.le_gt_cases (Z.to_nat w) (List.length (c :: t))) as [Hle|Hgt]; [exact Hle|].
      exfalso. specialize (H3 (S (List.length t)) ltac:(cbn in Hgt; lia)).
      unfold byteAt in H3. cbn [nth] in H3.
      rewrite app_nth2 in H3 by lia. rewrite Nat.sub_diag in H3. cbn in H3.
      fold (byteZ qc) in H3. lia. }
    unfold eos, rune_backslash. repeat split; try lia.
    intros i Hi. specialize (H3 (S i) ltac:(lia)).
    unfold byteAt in H3 |- *. cbn [nth] in H3.
    rewrite app_nth1 in H3 by (cbn in Hle; lia). exact H3.
Qed.

Lemma skipQuote_loop_literal qc rest :
  byteZ qc < 128 -> qc <> "\"%char ->
  forall fuel body pre l,
    (List.length body < fuel)%nat ->
    escaped qc body ->
    input l = pre ++ body ++ qc :: rest -> pos l = len pre ->
    skipQuote_loop fuel (byteZ qc) l =
      (Ok tt, set_width (set_pos l (len pre + len body + 1)) 1).
Proof.
  intros Hq Hqb.
  pose proof (byteZ_range qc) as Bq.
  assert (Hq92 : (byteZ qc =? rune_backslash) = false).
  { apply Z.eqb_neq. intros E. apply Hqb. apply byteZ_inj. exact E. }
  induction fuel as [|k IH]; intros body pre l Hf He Hi Hp; [lia|].
  cbn [skipQuote_loop]. unfold skipQuote_iter, bind.
  destruct He as [|c t Hc1 Hc2 He|c t Hc He].
  - (* the closing quote *)
    cbn [app] in Hi.
    rewrite (next_at l pre (qc :: rest) Hi Hp) by discriminate.
    rewrite DecodeRuneInString_ascii by exact Hq. cbn [fst snd].
    destruct (byteZ qc =? eos) eqn:E; [unfold eos in E; lia|].
    rewrite Hq92, Z.eqb_refl. rewrite Hp. change (len []) with 0.
    now rewrite Z.add_0_r.
  - (* a code point that is neither the quote nor a backslash *)
    rewrite (next_at l pre ((c :: t) ++ qc :: rest) Hi Hp) by discriminate.
    destruct (utf8.DecodeRuneInString ((c :: t) ++ qc :: rest)) as [r w] eqn:Hd.
    destruct (plain_rune qc c t rest r w Hq Hc1 Hc2 Hd) as (R1 & R2 & R3 & W1 & W2 & W3).
    cbn [fst snd].
    destruct (r =? eos) eqn:E1; [apply Z.eqb_eq in E1; contradiction|].
    destruct (r =? rune_backslash) eqn:E2; [apply Z.eqb_eq in E2; contradiction|].
    destruct (r =? byteZ qc) eqn:E3; [apply Z.eqb_eq in E3; contradiction|].
    set (k0 := (Z.to_nat w - 1)%nat).
    assert (Hk0 : (k0 <= List.length t)%nat) by (cbn in W2; lia).
    rewrite (IH (skipn k0 t) (pre ++ firstn (Z.to_nat w) (c :: t))).
    + replace (len (pre ++ firstn (Z.to_nat w) (c :: t)) + len (skipn k0 t) + 1)
        with (len pre + len (c :: t) + 1); [reflexivity|].
      rewrite len_app. unfold len. rewrite length_firstn, length_skipn.
      cbn [List.length] in *. lia.
    + rewrite length_skipn. cbn in Hf. lia.
    + apply escaped_skip; auto.
    + cbn [input set_width set_pos]. rewrite Hi.
      replace (skipn k0 t) with (skipn (Z.to_nat w) (c :: t)).
      * rewrite <- !app_assoc. f_equal. rewrite app_assoc. f_equal.
        symmetry. apply (firstn_skipn (Z.to_nat w) (c :: t)).
      * replace (Z.to_nat w) with (S k0) by lia. reflexivity.
    + cbn [pos set_width set_pos]. rewrite Hp, len_app. unfold len.
      rewrite length_firstn. cbn [List.length] in *. lia.
  - (* a backslash and the byte it escapes *)
    cbn [app] in Hi.
    rewrite (next_at l pre ("\"%char :: c :: t ++ qc :: rest) Hi Hp) by discriminate.
    rewrite DecodeRuneInString_ascii by (cbv; reflexivity). cbn [fst snd].
    change (byteZ "\"%char) with rune_backslash. cbn [Z.eqb rune_backslash eos Pos.eqb].
    set (l1 := set_width (set_pos l (pos l + 1)) 1).
    rewrite (next_at l1 (pre ++ ["\"%char]) (c :: t ++ qc :: rest)); try discriminate.
    + rewrite DecodeRuneInString_ascii by exact Hc. cbn [fst snd].
      rewrite (IH t (pre ++ ["\"%char; c])).
      * replace (len (pre ++ ["\"%char; c]) + len t + 1)
          with (len pre + len ("\"%char :: c :: t) + 1); [reflexivity|].
        rewrite len_app, !len_cons. change (len []) with 0. lia.
      * cbn in Hf. lia.
      * exact He.
      * unfold l1; cbn [input set_width set_pos]. rewrite Hi.
        now rewrite <- app_assoc.
      * unfold l1; cbn [pos set_width set_pos]. rewrite Hp, !len_app. cbn. lia.
    + unfold l1; cbn [input set_width set_pos]. rewrite Hi. now rewrite <- app_assoc.
    + unfold l1; cbn [pos set_width set_pos]. rewrite Hp, len_app. cbn. lia.
Qed.

(** X5.  On a quoted literal whose body is made of bytes other than the
    quote and the backslash and of backslashes each followed by one byte
    below 128 (the quote itself and the backslash among them), [skipQuote]
    returns nil and leaves the cursor just behind the closing quote,
    whatever bytes the body holds, valid UTF-8 or not, and whatever follows
    the literal. *)
Theorem skipQuote_skips_literal qc pre body rest l :
  byteZ qc < 128 -> qc <> "\"%char ->
  escaped qc body ->
  input l = pre ++ body ++ qc :: rest -> pos l = len pre ->
  skipQuote (byteZ qc) l =
    (Ok tt, set_width (set_pos l (len pre + len body + 1)) 1).
Proof.
  intros Hq Hqb He Hi Hp. unfold skipQuote.
  apply skipQuote_loop_literal with (rest := rest); auto.
  unfold rounds. rewrite Hi, Hp, !len_app, len_cons.
  pose proof (len_nonneg rest). unfold len in *. lia.
Qed.

Lemma In_skipn_le (x : ascii) s n m :
  (n <= m)%nat -> In x (skipn m s) -> In x (skipn n s).
Proof.
  intros Hnm H.
  replace m with ((m - n) + n)%nat in H by lia.
  rewrite <- skipn_skipn in H.
  revert H. generalize (skipn n s). intros u.
  generalize (m - n)%nat. intros k; revert u.
  induction k as [|k IH]; intros u H; [exact H|].
  destruct u as [|c u]; [exact H|]. right. apply IH. exact H.
Qed.

(** [next] does not hand back the quote where no byte of the rest is one. *)
Lemma next_not_quote qc l r l' :
  byteZ qc < 128 -> 0 <= pos l ->
  ~ In qc (skipn (Z.to_nat (pos l)) (input l)) ->
  next l = (r, l') ->
  exists c, r = Ok c /\ c <> byteZ qc /\ input l' = input l /\
    pos l <= pos l' /\
    (c = eos -> l' = l /\ len (input l) <= pos l) /\
    (c <> eos -> pos l < pos l' <= len (input l)).
Proof.
  intros Hq Hp Hn N. pose proof (byteZ_range qc) as Bq.
  destruct (next_inv _ _ _ N)
    as [(-> & -> & H)|[(_ & _ & H)|(c & w & t & -> & Hc & Hw & _ & Hl & Ht & Hd & ->)]].
  - exists eos. unfold eos. repeat split; auto; lia.
  - lia.
  - exists c. cbn [input pos]. split; [reflexivity|]. split.
    + intros ->. apply Hn.
      apply slice_from_inv in Ht as (_ & Ht & Hlen). rewrite <- Ht.
      destruct t as [|c0 t']; [cbn in Hlen; lia|].
      destruct (DecodeRuneInString_cases _ _ _ _ Hd) as [(_ & H1 & _)|[(_ & H1 & _)|(_ & H1 & _)]].
      * left. symmetry. now apply byteZ_inj.
      * unfold utf8.RuneError in H1. lia.
      * lia.
    + split; [reflexivity|]. split; [lia|]. split; [unfold eos; lia|]. intros _. lia.
Qed.

Lemma skipQuote_loop_unclosed qc :
  byteZ qc < 128 ->
  forall fuel l,
    0 <= pos l ->
    ~ In qc (skipn (Z.to_nat (pos l)) (input l)) ->
    (Z.to_nat (len (input l) - pos l) < fuel)%nat ->
    exists l', skipQuote_loop fuel (byteZ qc) l =
                 (Err (ErrUnclosedQuote (byteZ qc)), l') /\
               input l' = input l /\ len (input l) <= pos l'.
Proof.
  intros Hq. induction fuel as [|k IH]; intros l Hp Hn Hf; [lia|].
  cbn [skipQuote_loop]. unfold skipQuote_iter, bind.
  destruct (next l) as [r1 l1] eqn:N1.
  destruct (next_not_quote qc _ _ _ Hq Hp Hn N1) as (c & -> & Hc & Hi & Hpp & He & Hne).
  destruct (c =? eos) eqn:E.
  { apply Z.eqb_eq in E. destruct (He E) as (-> & Hl). eauto. }
  apply Z.eqb_neq in E. specialize (Hne E).
  assert (Hn1 : ~ In qc (skipn (Z.to_nat (pos l1)) (input l1))).
  { rewrite Hi. intros H. apply Hn. revert H. apply In_skipn_le. lia. }
  assert (Step : forall l2, input l2 = input l -> pos l1 <= pos l2 ->
            exists l', skipQuote_loop k (byteZ qc) l2 =
                         (Err (ErrUnclosedQuote (byteZ qc)), l') /\
                       input l' = input l /\ len (input l) <= pos l').
  { intros l2 Hi2 Hp2.
    destruct (IH l2) as (l' & E' & Hi' & Hl').
    - lia.
    - rewrite Hi2. intros H. apply Hn. revert H. apply In_skipn_le. lia.
    - rewrite Hi2. lia.
    - exists l'. split; [exact E'|]. rewrite <- Hi2. auto. }
  destruct (c =? rune_backslash).
  - destruct (next l1) as [r2 l2] eqn:N2.
    assert (Hp1 : 0 <= pos l1) by lia.
    destruct (next_not_quote qc _ _ _ Hq Hp1 Hn1 N2) as (c2 & -> & _ & Hi2 & Hpp2 & _ & _).
    apply Step; [congruence|lia].
  - destruct (c =? byteZ qc) eqn:E3; [apply Z.eqb_eq in E3; contradiction|].
    apply Step; [congruence|lia].
Qed.

(** X6.  Where no byte of the rest of the buffer is the quote, [skipQuote]
    fails with "unclosed quote" naming that quote, however many backslashes
    the rest holds, and only after it has read the buffer to its end. *)
Theorem skipQuote_unclosed qc l :
  byteZ qc < 128 -> 0 <= pos l ->
  ~ In qc (skipn (Z.to_nat (pos l)) (input l)) ->
  exists l', skipQuote (byteZ qc) l = (Err (ErrUnclosedQuote (byteZ qc)), l') /\
             input l' = input l /\ len (input l) <= pos l'.
Proof.
  intros Hq Hp Hn. unfold skipQuote.
  apply skipQuote_loop_unclosed; auto.
Qed.

(** X7.  When the rounds of [stmt] come to a quote character with no
    further such byte behind it, the call fails with "unclosed quote"
    naming the character, at any depth: the error of [skipQuote] goes
    through [stmt] as it is. *)
Theorem stmt_unclosed_quote n l0 l qc :
  wf l0 -> run n l0 = Some l ->
  nth_error (input l) (Z.to_nat (pos l)) = Some qc ->
  quote_rune (byteZ qc) = true ->
  ~ In qc (skipn (Z.to_nat (pos l + 1)) (input l)) ->
  fst (stmt l0) = Err (ErrUnclosedQuote (byteZ qc)).
Proof.
  intros Hwf Hrun Hn Hq Hno.
  rewrite (stmt_run _ _ _ Hrun Hwf).
  destruct (run_wf _ _ _ Hrun Hwf) as (W & _).
  assert (Hp : 0 <= pos l) by (unfold wf in W; lia).
  assert (Hq128 : byteZ qc < 128).
  { unfold quote_rune, rune_squote, rune_dquote, rune_backtick in Hq.
    repeat (apply orb_true_iff in Hq as [Hq|Hq]); apply Z.eqb_eq in Hq; lia. }
  rewrite (stmt_unfold _ W).
  rewrite (stmt_iter_quote l (byteZ qc) _ (next_ascii l qc Hp Hn Hq128) Hq).
  set (l1 := set_width (set_pos l (pos l + 1)) 1).
  unfold skipQuote.
  destruct (skipQuote_loop_unclosed qc Hq128 (rounds l1) l1) as (l' & E & _).
  - unfold l1; cbn. lia.
  - exact Hno.
  - unfold rounds. lia.
  - rewrite E. reflexivity.
Qed.

(** ** Comments *)

Lemma Index_hit s sub : strings.HasPrefix s sub = true -> strings.Index s sub = 0.
Proof. intros H. destruct s; cbn [strings.Index]; now rewrite H. Qed.

Lemma Index_first sub : forall body rest,
  absent_before sub (body ++ sub ++ rest) (List.length body) ->
  strings.Index (body ++ sub ++ rest) sub = len body.
Proof.
  induction body as [|c b IH]; intros rest Ha.
  - cbn [app]. apply Index_hit, HasPrefix_app.
  - pose proof (Ha 0%nat ltac:(cbn; lia)) as H0. cbn [skipn app] in H0.
    cbn [app strings.Index]. rewrite H0.
    rewrite IH.
    + rewrite len_cons. pose proof (len_nonneg b).
      destruct (len b <? 0) eqn:E; lia.
    + intros j Hj. exact (Ha (S j) ltac:(cbn; lia)).
Qed.

Lemma Index_none sub : forall s,
  absent_before sub s (S (List.length s)) -> strings.Index s sub = -1.
Proof.
  induction s as [|c s IH]; intros Ha.
  - pose proof (Ha 0%nat ltac:(cbn; lia)) as H0. cbn [skipn] in H0.
    cbn [strings.Index]. now rewrite H0.
  - pose proof (Ha 0%nat ltac:(cbn; lia)) as H0. cbn [skipn] in H0.
    cbn [strings.Index]. rewrite H0.
    rewrite IH; [reflexivity|].
    intros j Hj. exact (Ha (S j) ltac:(cbn; lia)).
Qed.

(** Two ASCII bytes under the cursor, read by two calls of [next]. *)
Lemma next_two l pre a b rest :
  byteZ a < 128 -> byteZ b < 128 ->
  input l = pre ++ a :: b :: rest -> pos l = len pre ->
  next l = (Ok (byteZ a), set_width (set_pos l (len pre + 1)) 1) /\
  next (set_width (set_pos l (len pre + 1)) 1) =
    (Ok (byteZ b), set_width (set_pos l (len pre + 2)) 1) /\
  slice_from (input l) (len pre + 2) = Some rest.
Proof.
  intros Ha Hb Hi Hp.
  split; [|split].
  - rewrite (next_at l pre (a :: b :: rest) Hi Hp) by discriminate.
    rewrite DecodeRuneInString_ascii by exact Ha. cbn [fst snd]. now rewrite Hp.
  - set (l1 := set_width (set_pos l (len pre + 1)) 1).
    rewrite (next_at l1 (pre ++ [a]) (b :: rest)); try discriminate.
    + rewrite DecodeRuneInString_ascii by exact Hb. cbn [fst snd].
      unfold l1, set_width, set_pos; cbn [pos input width start depth delim].
      now replace (len pre + 1 + 1) with (len pre + 2) by lia.
    + unfold l1; cbn. rewrite Hi. now rewrite <- app_assoc.
    + unfold l1; cbn. rewrite len_app. reflexivity.
  - rewrite Hi. replace (pre ++ a :: b :: rest) with ((pre ++ [a; b]) ++ rest)
      by now rewrite <- app_assoc.
    replace (len pre + 2) with (len (pre ++ [a; b])) by now rewrite len_app.
    apply slice_from_app.
Qed.

(** X8.  A round of [stmt] that begins at ["/*"] goes to just behind the
    first ["*/"] that follows the marker and changes nothing but the
    cursor, whatever the comment holds: its quotes, parentheses and
    delimiters are never looked at. *)
Theorem block_comment_skipped pre body rest l :
  input l = pre ++ bytes "/*" ++ body ++ bytes "*/" ++ rest ->
  pos l = len pre ->
  absent_before (bytes "*/") (body ++ bytes "*/" ++ rest) (List.length body) ->
  stmt_iter l = (Ok None, set_width (set_pos l (len pre + len body + 4)) 1).
Proof.
  intros Hi Hp Ha. cbn [bytes list_ascii_of_string app] in Hi.
  destruct (next_two l pre "/"%char "*"%char _ ltac:(cbv; reflexivity) ltac:(cbv; reflexivity) Hi Hp)
    as (N1 & N2 & Hs).
  rewrite (stmt_iter_block_comment l _ _ _ N1 N2 Hs).
  change ("*"%char :: "/"%char :: rest) with (bytes "*/" ++ rest).
  rewrite (Index_first (bytes "*/") body rest Ha).
  pose proof (len_nonneg body).
  destruct (len body <? 0) eqn:E; [lia|].
  unfold set_width, set_pos; cbn [pos input width start depth delim].
  now replace (len pre + 2 + (len body + 2)) with (len pre + len body + 4) by lia.
Qed.

(** X9.  When the rounds of [stmt] come to ["/*"] and no ["*/"] begins
    anywhere behind that marker, the call fails with "unclosed comment"
    carrying the offset just behind the marker; a [*] and [/] that share
    their star with the opening marker, as in [/*/], close nothing. *)
Theorem stmt_unclosed_comment n l0 l pre t :
  wf l0 -> run n l0 = Some l ->
  input l = pre ++ bytes "/*" ++ t -> pos l = len pre ->
  absent_before (bytes "*/") t (S (List.length t)) ->
  stmt l0 = (Err (ErrUnclosedComment (len pre + 2)),
             set_width (set_pos l (len pre + 2)) 1).
Proof.
  intros Hwf Hrun Hi Hp Ha.
  rewrite (stmt_run _ _ _ Hrun Hwf).
  destruct (run_wf _ _ _ Hrun Hwf) as (W & _).
  rewrite (stmt_unfold _ W).
  cbn [bytes list_ascii_of_string app] in Hi.
  destruct (next_two l pre "/"%char "*"%char _ ltac:(cbv; reflexivity) ltac:(cbv; reflexivity) Hi Hp)
    as (N1 & N2 & Hs).
  rewrite (stmt_iter_block_comment l _ _ _ N1 N2 Hs).
  rewrite (Index_none (bytes "*/") t Ha). reflexivity.
Qed.

(** X10.  A round of [stmt] that begins at ["--"] with a newline somewhere
    behind the marker goes to just behind the first such newline and
    changes nothing but the cursor, whatever the comment holds. *)
Theorem line_comment_skipped pre body rest l :
  input l = pre ++ bytes "--" ++ body ++ LF :: rest ->
  pos l = len pre ->
  ~ In LF body ->
  stmt_iter l = (Ok None, set_width (set_pos l (len pre + len body + 3)) 1).
Proof.
  intros Hi Hp Hn. cbn [bytes list_ascii_of_string app] in Hi.
  destruct (next_two l pre "-"%char "-"%char _ ltac:(cbv; reflexivity) ltac:(cbv; reflexivity) Hi Hp)
    as (N1 & N2 & Hs).
  rewrite (stmt_iter_line_comment l _ _ _ N1 N2 Hs).
  rewrite (Index_newline _ _ Hn).
  pose proof (len_nonneg body).
  destruct (len body =? -1) eqn:E; [lia|].
  unfold set_width, set_pos; cbn [pos input width start depth delim].
  now replace (len pre + 2 + (len body + 1)) with (len pre + len body + 3) by lia.
Qed.

(** ** The rounds of [stmt], once more *)

Lemma slice_to_end s lo :
  0 <= lo <= len s -> slice s lo (len s) = Some (skipn (Z.to_nat lo) s).
Proof.
  intros H. rewrite slice_Some by lia. f_equal.
  apply firstn_all2. rewrite length_skipn. unfold len in *. lia.
Qed.

Ltac arith2 :=
  unfold anchored, structural_error, round_post in *; arith.

Lemma stmt_iter_anchored l r l' :
  stmt_iter l = (r, l') -> anchored l -> anchored l' /\ round_post l r l'.
Proof.
  intros H Ha. pose proof Ha as (Hwf & Ha1 & Ha2).
  destruct (stmt_iter_wf _ _ _ H Hwf) as (W' & Hi' & Hd' & Hpost).
  revert H. unfold stmt_iter, bind. intros H.
  destruct (next l) as [r1 l1] eqn:N1.
  destruct (next_wf _ _ _ N1 Hwf) as (W1 & S1 & P1 & [(-> & -> & Hl)|(c & -> & Hc & Hp & Hw)]).
  - (* end of input *)
    cbn in H. destruct (depth l >? 0) eqn:Ed.
    + injection H as <- <-. split; [exact Ha|]. arith2.
    + destruct (pos l >? start l) eqn:Ep.
      * rewrite slice_from_Some in H by (unfold wf in Hwf; lia).
        injection H as <- <-. split; [exact Ha|].
        unfold round_post. split; [lia|]. split; [lia|].
        exists (len (input l)). split; [unfold wf in Hwf; lia|].
        apply slice_to_end. unfold wf in Hwf; lia.
      * injection H as <- <-. split; [exact Ha|]. arith2. left. repeat split; lia.
  - destruct (c =? eos) eqn:E; [unfold eos in E; lia|]. clear E.
    destruct (c =? rune_lparen) eqn:E.
    { injection H as <- <-. arith2. }
    clear E. destruct (c =? rune_rparen) eqn:E.
    { destruct (depth l1 =? 0) eqn:Ed; injection H as <- <-; arith2. }
    clear E.
    destruct ((c =? rune_squote) || (c =? rune_dquote) || (c =? rune_backtick)) eqn:Eq.
    { destruct (skipQuote c l1) as [rq l2] eqn:Q.
      destruct (skipQuote_wf _ _ _ _ Q W1) as (W2 & S2 & P2 & [->|(-> & Hq)]);
        injection H as <- <-; arith2.
      right. exact Eq. }
    clear Eq.
    destruct (and_next c rune_minus rune_minus l1) as [rb l2] eqn:A1.
    destruct (and_next_wf c rune_minus rune_minus l1 rb l2 ltac:(unfold rune_minus; lia) A1 W1)
      as (W2 & S2 & P2 & b & -> & Hl2 & Hb).
    destruct b.
    { specialize (Hb eq_refl).
      rewrite slice_from_Some in H by arith.
      set (t := skipn (Z.to_nat (pos l2)) (input l2)) in *.
      assert (Ht : len t = len (input l2) - pos l2).
      { unfold t. apply len_skipn. arith. }
      destruct (Index_range t [LF]) as [Hi|Hi]; change (len [LF]) with 1 in *.
      - rewrite Hi in H. cbn in H. injection H as <- <-. arith2.
      - destruct (strings.Index t [LF] =? -1) eqn:Ei; [lia|].
        cbn [negb] in H. injection H as <- <-. arith2. }
    destruct (and_next c rune_slash rune_star l2) as [rb l3] eqn:A2.
    destruct (and_next_wf c rune_slash rune_star l2 rb l3 ltac:(unfold rune_star; lia) A2 W2)
      as (W3 & S3 & P3 & b & -> & Hl3 & Hb3).
    destruct b.
    { specialize (Hb3 eq_refl).
      rewrite slice_from_Some in H by arith.
      set (t := skipn (Z.to_nat (pos l3)) (input l3)) in *.
      assert (Ht : len t = len (input l3) - pos l3).
      { unfold t. apply len_skipn. arith. }
      destruct (Index_range t (bytes "*/")) as [Hi|Hi]; change (len (bytes "*/")) with 2 in *.
      - rewrite Hi in H. cbn in H. injection H as <- <-. arith2.
      - destruct (strings.Index t (bytes "*/") <? 0) eqn:Ei; [lia|].
        injection H as <- <-. arith2. }
    assert (F : start l <= pos l3 - width l3 < pos l3 /\ pos l3 <= len (input l)).
    { destruct Hl2 as [->|Hl2]; destruct Hl3 as [->|Hl3]; arith. }
    rewrite slice_from_Some in H by arith.
    destruct (strings.HasPrefix _ (delim l3)); [|injection H as <- <-; arith2].
    destruct (depth l3 =? 0) eqn:Ed; [|injection H as <- <-; arith2].
    rewrite slice_Some in H by arith.
    injection H as <- <-. pose proof (len_nonneg (delim l3)).
    split; [arith2|].
    unfold round_post. cbn. split; [arith|]. split; [arith|].
    exists (pos l3). split; [arith|].
    replace (input l) with (input l3) by arith.
    replace (start l) with (start l3) by arith.
    apply slice_Some; arith.
Qed.

(** ** Whole calls of [stmt] and [stmts] *)

Lemma anchored_fresh b d : anchored (fresh b d).
Proof.
  split; [apply wf_fresh|]. unfold fresh; cbn. split; lia.
Qed.

Lemma next_anchored l r l' : next l = (r, l') -> anchored l -> anchored l'.
Proof.
  intros N (Hwf & A1 & A2).
  destruct (next_wf _ _ _ N Hwf) as (W & S & P & [(_ & -> & _)|(c & _ & _ & Hp & _)]).
  - now split.
  - split; [exact W|]. unfold wf, same in *.
    destruct S as (Hi & _ & Hs & _). rewrite Hi, Hs. split; lia.
Qed.

Lemma reachable_anchored src l : reachable src l -> anchored l.
Proof.
  induction 1 as [l H|l r l' _ IH H|l r l' _ IH H].
  - destruct (newLex_fresh _ _ H) as (b & d & ->). apply anchored_fresh.
  - exact (next_anchored _ _ _ H IH).
  - now destruct (stmt_iter_anchored _ _ _ H IH).
Qed.

Lemma stmt_loop_anchored f : forall l r l',
  anchored l -> stmt_loop f l = (r, l') ->
  anchored l' /\ input l' = input l /\ delim l' = delim l /\
  pos l <= pos l' /\ start l <= start l' /\ call_post l r l'.
Proof.
  induction f as [|k IH]; intros l r l' Ha H.
  - cbn in H. injection H as <- <-. cbn. repeat split; try apply Ha; lia.
  - cbn [stmt_loop] in H. unfold bind in H.
    destruct (stmt_iter l) as [r1 l1] eqn:I.
    pose proof Ha as (Hwf & _).
    destruct (stmt_iter_wf _ _ _ I Hwf) as (W1 & Hi & Hd & Hpost).
    destruct (stmt_iter_anchored _ _ _ I Ha) as (A1 & Hp & Hs & Hr).
    destruct r1 as [[s|]|e| |]; cbn in Hpost, Hr; try contradiction.
    + injection H as <- <-. cbn.
      split; [exact A1|]. split; [exact Hi|]. split; [exact Hd|].
      split; [exact Hp|]. split; [exact Hs|]. split; [apply Hpost|exact Hr].
    + destruct (IH _ _ _ A1 H) as (A2 & Hi2 & Hd2 & Hp2 & Hs2 & Hc).
      destruct Hpost as (Hst & Hpos & _).
      split; [exact A2|]. split; [congruence|]. split; [congruence|].
      split; [lia|]. split; [lia|].
      destruct r as [s|e| |]; cbn in Hc |- *; auto.
      * destruct Hc as (Hd0 & e & He & Hsl). split; [exact Hd0|].
        exists e. rewrite <- Hi, <- Hst. auto.
      * destruct Hc as [(-> & -> & Hl & Hps)|Hc]; [|now right].
        unfold wf in Hwf. lia.
    + injection H as <- <-. cbn.
      split; [exact A1|]. split; [exact Hi|]. split; [exact Hd|].
      split; [exact Hp|]. split; [exact Hs|]. exact Hr.
Qed.

Lemma slice_len s lo hi t : slice s lo hi = Some t -> len t = hi - lo.
Proof.
  unfold slice.
  destruct (0 <=? lo) eqn:E1; [|discriminate].
  destruct (lo <=? hi) eqn:E2; [|discriminate].
  destruct (hi <=? len s) eqn:E3; [|discriminate].
  intros [= <-]. unfold len in *.
  rewrite length_firstn, length_skipn. lia.
Qed.

Lemma stmt_reachable src l r l' :
  reachable src l -> stmt l = (r, l') -> reachable src l'.
Proof. intros Hr H. exact (stmt_loop_reachable _ _ _ _ _ Hr H). Qed.

(** X11.  A call of [stmt] never goes back and never touches the buffer or
    the delimiter: whatever it hands back, the cursor and the start of the
    statement are where they were or further on. *)
Theorem stmt_never_goes_back src l r l' :
  reachable src l -> stmt l = (r, l') ->
  input l' = input l /\ delim l' = delim l /\
  pos l <= pos l' /\ start l <= start l'.
Proof.
  intros Hr H.
  destruct (stmt_loop_anchored _ _ _ _ (reachable_anchored _ _ Hr) H)
    as (_ & Hi & Hd & Hp & Hs & _).
  auto.
Qed.

(** X12.  A statement that [stmt] hands back is never empty; it is the piece
    of the buffer from the start offset of the call to some later offset,
    and the lexer is left at depth 0. *)
Theorem stmt_statement_shape src l s l' :
  reachable src l -> stmt l = (Ok s, l') ->
  depth l' = 0 /\ s <> [] /\
  exists e, start l < e <= len (input l) /\
            slice (input l) (start l) e = Some s.
Proof.
  intros Hr H.
  destruct (stmt_loop_anchored _ _ _ _ (reachable_anchored _ _ Hr) H)
    as (_ & _ & _ & _ & _ & Hd & e & He & Hs).
  split; [exact Hd|]. split; [|eauto].
  apply slice_len in Hs. intros ->. cbn in Hs. lia.
Qed.

(** An anchored lexer whose cursor is at the end of the buffer and not in
    front of the start of the statement has an empty buffer. *)
Lemma anchored_at_end l :
  anchored l -> len (input l) <= pos l -> pos l <= start l ->
  input l = [] /\ pos l = 0.
Proof.
  intros (Hwf & _ & A2) Hl Hp. unfold wf in Hwf.
  assert (pos l = 0) by lia.
  split; [|assumption].
  destruct (input l) as [|c g]; [reflexivity|]. rewrite len_cons in Hl.
  pose proof (len_nonneg g). lia.
Qed.

(** X13.  [stmt] hands back [io.EOF] only when the buffer is empty, and
    then it leaves the lexer as it was: on a buffer that is not empty no
    call signals the end. *)
Theorem stmt_eof_only_on_empty src l l' :
  reachable src l -> stmt l = (Err io_EOF, l') ->
  l' = l /\ input l = [] /\ pos l = 0.
Proof.
  intros Hr H. pose proof (reachable_anchored _ _ Hr) as Ha.
  destruct (stmt_loop_anchored _ _ _ _ Ha H) as (_ & _ & _ & _ & _ & Hc).
  cbn in Hc. destruct Hc as [(_ & -> & Hl & Hp)|[]].
  split; [reflexivity|]. now apply anchored_at_end.
Qed.

Lemma stmts_loop_shape src fuel : forall l acc,
  reachable src l ->
  match stmts_loop fuel l acc with
  | Ok ss => ss = acc /\ input l = []
  | Err e => exists l', reachable src l' /\ input l' = input l /\ structural_error l' e
  | Panic => False
  | OutOfFuel => True
  end.
Proof.
  induction fuel as [|k IH]; intros l acc Hr; [exact I|].
  cbn [stmts_loop].
  destruct (stmt l) as [r l'] eqn:H.
  pose proof (reachable_anchored _ _ Hr) as Ha.
  destruct (stmt_loop_anchored _ _ _ _ Ha H) as (A' & Hi & _ & _ & _ & Hc).
  pose proof (stmt_reachable _ _ _ _ Hr H) as Hr'.
  destruct r as [s|e| |]; cbn in Hc; auto.
  - specialize (IH l' (acc ++ [s]) Hr').
    destruct (stmts_loop k l' (acc ++ [s])) as [ss|e| |] eqn:E; auto.
    + exfalso. destruct Hc as (_ & e & He & _). destruct IH as (_ & Hn).
      rewrite Hi in Hn. rewrite Hn in He. cbn in He.
      destruct Ha as (Hwf & _). unfold wf in Hwf. lia.
    + destruct IH as (l2 & R2 & Hi2 & Hs2). exists l2. repeat split; auto. congruence.
  - destruct Hc as [(-> & -> & Hl & Hp)|Hc].
    + split; [reflexivity|].
      now apply anchored_at_end.
    + destruct e; try contradiction; exists l'; (split; [exact Hr'|]); (split; [exact Hi|]); exact Hc.
Qed.

(** X14.  [stmts] returns without an error only for a file whose buffer is
    empty, and then with no statement: on every other file it fails or
    does not come back. *)
Theorem stmts_returns_only_on_empty fuel src ss :
  stmts fuel src = Ok ss ->
  ss = [] /\ exists d, newLex src = Ok (fresh [] d).
Proof.
  unfold stmts. destruct (newLex src) as [l|e| |] eqn:N; try discriminate.
  intros H. pose proof (stmts_loop_shape src fuel l [] (reach_new _ _ N)) as S.
  rewrite H in S. destruct S as (-> & Hn).
  split; [reflexivity|].
  destruct (newLex_fresh _ _ N) as (b & d & ->). cbn in Hn. subst b. eauto.
Qed.

(** X15.  An error of [stmts] is the directive error of [newLex] or one of
    the four errors of the scan, never [io.EOF]: unclosed parentheses at the
    end of the buffer, a stray [')'] or an unclosed block comment with a
    position inside the buffer, or an unclosed quote naming one of the three
    quote characters. *)
Theorem stmts_errors fuel src e :
  stmts fuel src = Err e ->
  (e = ErrInvalidDelimiter /\ newLex src = Err ErrInvalidDelimiter) \/
  exists l l', newLex src = Ok l /\ reachable src l' /\
               input l' = input l /\ structural_error l' e.
Proof.
  unfold stmts. destruct (newLex src) as [l|e0| |] eqn:N; try discriminate.
  - intros H. right.
    pose proof (stmts_loop_shape src fuel l [] (reach_new _ _ N)) as S.
    rewrite H in S. destruct S as (l' & R & Hi & Hs).
    exists l, l'. auto.
  - intros [= ->]. left.
    destruct (newLex_returns src) as [(l & E)|E]; [congruence|].
    rewrite N in E. injection E as ->. now split.
Qed.

(** X16.  Whatever the file and however long the loop runs, [stmts] does
    not panic: every slice expression of [newLex] and [stmt] stays inside
    the buffer. *)
Theorem stmts_never_panics fuel src : stmts fuel src <> Panic.
Proof.
  unfold stmts. destruct (newLex src) as [l|e0| |] eqn:N; try discriminate.
  - intros H.
    pose proof (stmts_loop_shape src fuel l [] (reach_new _ _ N)) as S.
    now rewrite H in S.
  - destruct (newLex_returns src) as [(l & E)|E]; congruence.
Qed.

(** ** The further properties on concrete files *)

(** X1 on the two bytes of [U+00E9] followed by [;]: one call takes both
    bytes and leaves the [;]. *)
Lemma next_reads_ascii_alone_witness :
  let s := "195"%char :: "169"%char :: bytes ";" in
  next (fresh s (bytes ";")) = (Ok 233, mkLex s 2 2 0 0 (bytes ";")) /\
  (233 < 128 <-> byteAt s 0 < 128) /\
  (forall i, 0 < i < 2 -> 128 <= byteAt s (Z.to_nat i)).
Proof.
  intros s.
  assert (N : next (fresh s (bytes ";")) = (Ok 233, mkLex s 2 2 0 0 (bytes ";")))
    by (vm_compute; reflexivity).
  assert (E : 233 <> eos) by (unfold eos; lia).
  destruct (next_reads_ascii_alone _ _ _ N E) as (H1 & _ & H3).
  split; [exact N|]. split; [exact H1|exact H3].
Defined.

(** X2 on a buffer that ends inside a code point: the lone byte [0xC3] is
    read as the replacement character of width 1. *)
Lemma next_stays_in_buffer_witness :
  let l := fresh ["195"%char] (bytes ";") in
  let l' := mkLex ["195"%char] 1 1 0 0 (bytes ";") in
  same l l' /\
  ((len (input l) <= pos l /\ Ok 65533 = Ok eos /\ l' = l) \/
   (pos l < len (input l) /\
    exists c, Ok 65533 = Ok c /\ 0 <= c /\ 1 <= width l' <= 4 /\
              pos l' = pos l + width l' /\ pos l' <= len (input l))).
Proof.
  intros l l'. apply (next_stays_in_buffer l (Ok 65533) l').
  - vm_compute. discriminate.
  - vm_compute. reflexivity.
Defined.

(** X5 on [a'b\'c'd] with the cursor behind the opening quote. *)
Lemma skipQuote_skips_literal_witness :
  skipQuote 39 (mkLex (bytes "a'b\'c'd") 2 1 0 0 (bytes ";")) =
    (Ok tt, mkLex (bytes "a'b\'c'd") 7 1 0 0 (bytes ";")).
Proof.
  apply (skipQuote_skips_literal "'"%char (bytes "a'") (bytes "b\'c") (bytes "d")
           (mkLex (bytes "a'b\'c'd") 2 1 0 0 (bytes ";"))).
  - vm_compute. reflexivity.
  - discriminate.
  - apply esc_plain; [discriminate|discriminate|].
    apply esc_pair; [vm_compute; reflexivity|].
    apply esc_plain; [discriminate|discriminate|]. apply esc_nil.
  - reflexivity.
  - reflexivity.
Defined.

(** X6 on ['ab] with the cursor behind the quote. *)
Lemma skipQuote_unclosed_witness :
  exists l', skipQuote 39 (mkLex (bytes "'ab") 1 1 0 0 (bytes ";")) =
               (Err (ErrUnclosedQuote 39), l') /\
             input l' = bytes "'ab" /\ 3 <= pos l'.
Proof.
  apply (skipQuote_unclosed "'"%char (mkLex (bytes "'ab") 1 1 0 0 (bytes ";"))).
  - vm_compute. reflexivity.
  - vm_compute. discriminate.
  - cbn. intros [H|[H|[]]]; discriminate.
Defined.

(** X7 on [(a 'b]: three rounds bring the cursor to the quote at depth 1. *)
Lemma stmt_unclosed_quote_witness :
  fst (stmt (fresh (bytes "(a 'b") (bytes ";"))) = Err (ErrUnclosedQuote 39).
Proof.
  apply (stmt_unclosed_quote 3 (fresh (bytes "(a 'b") (bytes ";"))
           (mkLex (bytes "(a 'b") 3 1 0 1 (bytes ";")) "'"%char).
  - apply wf_fresh.
  - vm_compute. reflexivity.
  - reflexivity.
  - reflexivity.
  - cbn. intros [H|[]]; discriminate.
Defined.

(** X8 on [a/* ;' */b] with the cursor at the comment. *)
Lemma block_comment_skipped_witness :
  stmt_iter (mkLex (bytes "a/* ;' */b") 1 1 0 0 (bytes ";")) =
    (Ok None, mkLex (bytes "a/* ;' */b") 9 1 0 0 (bytes ";")).
Proof.
  apply (block_comment_skipped (bytes "a") (bytes " ;' ") (bytes "b")
           (mkLex (bytes "a/* ;' */b") 1 1 0 0 (bytes ";"))).
  - reflexivity.
  - reflexivity.
  - intros j Hj. do 4 (destruct j as [|j]; [reflexivity|]). cbn in Hj. lia.
Defined.

(** X9 on [a/*/]: the star of the marker closes nothing. *)
Lemma stmt_unclosed_comment_witness :
  stmt (fresh (bytes "a/*/") (bytes ";")) =
    (Err (ErrUnclosedComment 3), mkLex (bytes "a/*/") 3 1 0 0 (bytes ";")).
Proof.
  apply (stmt_unclosed_comment 1 (fresh (bytes "a/*/") (bytes ";"))
           (mkLex (bytes "a/*/") 1 1 0 0 (bytes ";")) (bytes "a") (bytes "/")).
  - apply wf_fresh.
  - vm_compute. reflexivity.
  - reflexivity.
  - reflexivity.
  - intros j Hj. do 2 (destruct j as [|j]; [reflexivity|]). cbn in Hj. lia.
Defined.

(** X10 on [a-- ;x], a newline and [b], with the cursor at the comment. *)
Lemma line_comment_skipped_witness :
  stmt_iter (mkLex (bytes "a-- ;x" ++ LF :: bytes "b") 1 1 0 0 (bytes ";")) =
    (Ok None, mkLex (bytes "a-- ;x" ++ LF :: bytes "b") 7 1 0 0 (bytes ";")).
Proof.
  apply (line_comment_skipped (bytes "a") (bytes " ;x") (bytes "b")
           (mkLex (bytes "a-- ;x" ++ LF :: bytes "b") 1 1 0 0 (bytes ";"))).
  - reflexivity.
  - reflexivity.
  - cbn. intros [H|[H|[H|[]]]]; discriminate.
Defined.

(** X3 on a directive with no newline behind it. *)
Lemma newLex_invalid_delimiter_witness :
  newLex (bytes "//atlas:delimiter $$") = Err ErrInvalidDelimiter.
Proof.
  apply (proj2 (newLex_invalid_delimiter (bytes "//atlas:delimiter $$"))).
  exists (bytes "$$"). split.
  - vm_compute. reflexivity.
  - vm_compute. intros [H|[H|[]]]; discriminate.
Defined.

(** X4 on a directive that sets [$$]. *)
Lemma newLex_delimiter_witness :
  let l := fresh (bytes "a$$") (bytes "$$") in
  l = fresh (input l) (delim l) /\
  delim l <> [] /\ ~ In LF (delim l) /\
  (forall c t, delim l = c :: t -> strings.asciiSpace (byteZ c) = false).
Proof.
  intros l.
  apply (newLex_delimiter (bytes "//atlas:delimiter $$" ++ LF :: bytes "a$$") l).
  vm_compute. reflexivity.
Defined.

(** X16 on [a;]. *)
Lemma stmts_never_panics_witness : stmts 3 (bytes "a;") <> Panic.
Proof. exact (stmts_never_panics 3 (bytes "a;")). Defined.

(** X11 on the first call for [a;b]. *)
Lemma stmt_never_goes_back_witness :
  let l := fresh (bytes "a;b") (bytes ";") in
  let l' := mkLex (bytes "a;b") 3 1 1 0 (bytes ";") in
  input l' = input l /\ delim l' = delim l /\ pos l <= pos l' /\ start l <= start l'.
Proof.
  intros l l'.
  apply (stmt_never_goes_back (bytes "a;b") l (Ok (bytes "a;")) l').
  - apply reach_new. vm_compute. reflexivity.
  - vm_compute. reflexivity.
Defined.

(** X12 on the first call for [a;b]. *)
Lemma stmt_statement_shape_witness :
  let l := fresh (bytes "a;b") (bytes ";") in
  let l' := mkLex (bytes "a;b") 3 1 1 0 (bytes ";") in
  depth l' = 0 /\ bytes "a;" <> [] /\
  exists e, start l < e <= len (input l) /\ slice (input l) (start l) e = Some (bytes "a;").
Proof.
  intros l l'.
  apply (stmt_statement_shape (bytes "a;b") l (bytes "a;") l').
  - apply reach_new. vm_compute. reflexivity.
  - vm_compute. reflexivity.
Defined.

(** X13 on a file of two blanks. *)
Lemma stmt_eof_only_on_empty_witness :
  let l := fresh [] (bytes ";") in
  l = l /\ input l = [] /\ pos l = 0.
Proof.
  intros l.
  apply (stmt_eof_only_on_empty (bytes "  ") l l).
  - apply reach_new. vm_compute. reflexivity.
  - vm_compute. reflexivity.
Defined.

(** X14 on a file of two blanks. *)
Lemma stmts_returns_only_on_empty_witness :
  @nil gostring = [] /\ exists d, newLex (bytes "  ") = Ok (fresh [] d).
Proof.
  apply (stmts_returns_only_on_empty 1 (bytes "  ") []).
  vm_compute. reflexivity.
Defined.

(** X15 on [a)]. *)
Lemma stmts_errors_witness :
  (ErrUnexpectedClose 2 = ErrInvalidDelimiter /\
   newLex (bytes "a)") = Err ErrInvalidDelimiter) \/
  exists l l', newLex (bytes "a)") = Ok l /\ reachable (bytes "a)") l' /\
               input l' = input l /\ structural_error l' (ErrUnexpectedClose 2).
Proof.
  apply (stmts_errors 2 (bytes "a)") (ErrUnexpectedClose 2)).
  vm_compute. reflexivity.
Defined.
